(** * Hidden-payload detector: the analyzer core of [script.js]

    A shallow embedding of [script.js] (format detection, end-of-data
    scan, tail scoring, LSB scoring, score aggregation, signature scan,
    byte statistics, the canvas that feeds the LSB scan) and the
    properties of it that the specification states.

    Modelling choices, all visible in the definitions below:
    - a [Uint8Array] / [Uint8ClampedArray] is a [list byte]; [a[i]] is
      [nth_error a i], so an out-of-range read is [None] (JS [undefined]);
    - integer counters ([length], [lsb0], [lsb1], [freq[b]]) are [Z] or
      [nat], and everything the code derives from them by integer steps
      (offsets, tails, the frequency table, the counts) is exact;
    - a JS number that the code obtains by division is a [JS.num]: an
      exact rational, an infinity, or NaN.  Division follows JS on a zero
      divisor (0/0 is NaN, x/0 is an infinity).  [Math.log2] and
      [Math.sqrt] are the real functions, so [shannonEntropy] is a real
      number ([R]) and the test [entropy > 6.5] a comparison in [R].  This
      is the arithmetic the code approximates in binary64, not the
      arithmetic it performs: the two can differ by a rounding error, and
      a result that sits on a rounding boundary can differ with it;
    - [Binary64] gives the same expressions in binary64, on primitive
      floats.  It is used to show where the rounding error cannot reach
      the result ([combined_score_binary64]: the aggregate score, for all
      integer sub-scores) and where it does (the last section: the LSB
      sub-score and the canvas side on a rounding boundary, the entropy
      above 8);
    - [analyzeImage] is the computation on the file bytes and a pixel
      grid; [analyzeImage_run] is the run that obtains the grid from
      [getImageData], which throws on a canvas without pixels.  The file
      reads, the decoding and drawing of the image and the report written
      to the page are the browser's and are left out. *)

From Stdlib Require Import ZArith QArith Qround Qabs Lia Psatz List Bool.
From Stdlib Require Import Strings.String Strings.Ascii Strings.Byte DecimalString.
From Stdlib Require Import Reals.
From Stdlib Require Import Permutation.
From Stdlib Require PrimFloat Uint63.
Import ListNotations.

Local Open Scope Z_scope.

(** ** JS values used by the analyzer *)

Module JS.

(** A JS number: a finite value, [Infinity] / [-Infinity], or [NaN]. *)
Inductive num : Type :=
| Fin (q : Q)
| Inf (negative : bool)
| NaN.

Definition of_Z (z : Z) : num := Fin (inject_Z z).

Definition Qneg_bool (q : Q) : bool := negb (Qle_bool 0 q).
Definition Qzero_bool (q : Q) : bool := Qeq_bool q 0.

Definition neg (a : num) : num :=
  match a with
  | Fin q => Fin (- q)
  | Inf s => Inf (negb s)
  | NaN => NaN
  end.

Definition add (a b : num) : num :=
  match a, b with
  | Fin x, Fin y => Fin (x + y)
  | Fin _, Inf s => Inf s
  | Inf s, Fin _ => Inf s
  | Inf s, Inf t => if Bool.eqb s t then Inf s else NaN
  | _, _ => NaN
  end.

Definition sub (a b : num) : num :=
  match a, b with
  | Fin x, Fin y => Fin (x - y)
  | _, _ => add a (neg b)
  end.

Definition mul (a b : num) : num :=
  match a, b with
  | Fin x, Fin y => Fin (x * y)
  | Fin x, Inf s => if Qzero_bool x then NaN else Inf (xorb (Qneg_bool x) s)
  | Inf s, Fin y => if Qzero_bool y then NaN else Inf (xorb s (Qneg_bool y))
  | Inf s, Inf t => Inf (xorb s t)
  | _, _ => NaN
  end.

(** [a / b]: a zero divisor gives NaN for a zero dividend and an infinity
    otherwise. *)
Definition div (a b : num) : num :=
  match a, b with
  | Fin x, Fin y =>
      if Qzero_bool y
      then (if Qzero_bool x then NaN else Inf (Qneg_bool x))
      else Fin (x / y)
  | Fin _, Inf _ => Fin 0
  | Inf s, Fin y => Inf (xorb s (Qneg_bool y))
  | _, _ => NaN
  end.

(** [Math.abs] *)
Definition Math_abs (a : num) : num :=
  match a with
  | Fin q => Fin (Qabs q)
  | Inf _ => Inf false
  | NaN => NaN
  end.

(** [Math.round]: the nearest integer, a tie going up. *)
Definition Math_round (a : num) : num :=
  match a with
  | Fin q => of_Z (Qfloor (q + (1 # 2)))
  | _ => a
  end.

(** [Math.min] of two arguments: NaN if either is NaN. *)
Definition Math_min (a b : num) : num :=
  match a, b with
  | NaN, _ | _, NaN => NaN
  | Inf true, _ | _, Inf true => Inf true
  | Inf false, c | c, Inf false => c
  | Fin x, Fin y => if Qle_bool x y then Fin x else Fin y
  end.

(** [a >= b] and [a > b]: false as soon as one side is NaN. *)
Definition ge (a b : num) : bool :=
  match a, b with
  | NaN, _ | _, NaN => false
  | Fin x, Fin y => Qle_bool y x
  | Inf false, _ => true
  | _, Inf true => true
  | _, _ => false
  end.

Definition gt (a b : num) : bool :=
  match a, b with
  | NaN, _ | _, NaN => false
  | Fin x, Fin y => negb (Qle_bool x y)
  | Inf false, Inf false => false
  | Inf false, _ => true
  | Inf true, _ => false
  | Fin _, Inf s => s
  end.

(** The value is a finite number within [lo, hi]. *)
Definition within (lo hi : Q) (a : num) : Prop :=
  match a with
  | Fin q => (lo <= q /\ q <= hi)%Q
  | _ => False
  end.

(** Decimal text of an integer, as a template literal prints a count. *)
Definition int_toString (z : Z) : string :=
  NilZero.string_of_int (Z.to_int z).

(** [f] digits of [n], padded with zeros on the left. *)
Fixpoint frac_digits (f : nat) (n : Z) : string :=
  match f with
  | O => EmptyString
  | S f' =>
      append (frac_digits f' (n / 10))
             (String (ascii_of_nat (48 + Z.to_nat (n mod 10))) EmptyString)
  end.

(** The text of the non-negative integer [n] read as a number with [f]
    decimals: [n = 1234], [f = 2] gives [12.34]. *)
Definition fixed_text (f : nat) (n : Z) : string :=
  let p := 10 ^ Z.of_nat f in
  match f with
  | O => int_toString n
  | S _ => append (int_toString (n / p))
                  (append "." (frac_digits f (n mod p)))
  end.

(** [x.toFixed(f)] for a magnitude below 1e21: the integer [n] with
    [n / 10^f] nearest to [x] (the larger on a tie), a minus sign first when
    [x < 0]. *)
Definition toFixed (a : num) (f : nat) : string :=
  match a with
  | NaN => "NaN"
  | Inf false => "Infinity"
  | Inf true => "-Infinity"
  | Fin q =>
      let scale := inject_Z (10 ^ Z.of_nat f) in
      if Qneg_bool q
      then append "-" (fixed_text f (Qfloor (Qabs q * scale + (1 # 2))))
      else fixed_text f (Qfloor (q * scale + (1 # 2)))
  end.

(** [x.toFixed(f)] for a real [x] (the entropy). *)
Definition toFixedR (x : R) (f : nat) : string :=
  let scale := IZR (10 ^ Z.of_nat f) in
  if Rlt_dec x 0
  then append "-" (fixed_text f (Int_part (Rabs x * scale + / 2)))
  else fixed_text f (Int_part (x * scale + / 2)).

(** Truthiness of a value that is a string or [null]. *)
Definition truthy (o : option string) : bool :=
  match o with
  | Some EmptyString => false
  | Some _ => true
  | None => false
  end.

End JS.

(** ** Byte arrays *)

(** [a[i] === b] on a typed array: false when [i] is out of range. *)
Definition byte_is (a : list byte) (i : nat) (b : byte) : bool :=
  match nth_error a i with
  | Some x => Byte.eqb x b
  | None => false
  end.

(** [a.slice(start)] for [0 <= start]. *)
Definition slice (a : list byte) (start : Z) : list byte :=
  skipn (Z.to_nat start) a.

Definition len (a : list byte) : Z := Z.of_nat (List.length a).

(** ** SignatureScanner: [findSignature] *)

Record signature : Type := { name : string; bytes : list byte }.

Definition sigs : list signature :=
  [ {| name := "ZIP"; bytes := [x50; x4b; x03; x04] |};
    {| name := "APK"; bytes := [x50; x4b; x03; x04] |};
    {| name := "PDF"; bytes := [x25; x50; x44; x46] |};
    {| name := "RAR"; bytes := [x52; x61; x72; x21] |};
    {| name := "EXE"; bytes := [x4d; x5a] |} ].

(** The innermost loop: [pat] against [data] from index [k] on, stopping at
    the first byte that differs. *)
Fixpoint match_bytes (data : list byte) (k : nat) (pat : list byte) : bool :=
  match pat with
  | [] => true
  | b :: pat' =>
      if byte_is data k b then match_bytes data (S k) pat' else false
  end.

(** The loop over the table at one offset [i]: the first entry that
    matches. *)
Fixpoint first_sig (data : list byte) (i : nat) (tbl : list signature)
  : option string :=
  match tbl with
  | [] => None
  | s :: tbl' =>
      if match_bytes data i (bytes s) then Some (name s)
      else first_sig data i tbl'
  end.

(** The outer loop, [n] offsets starting at [i]. *)
Fixpoint scan_sigs (data : list byte) (n i : nat) : option string :=
  match n with
  | O => None
  | S n' =>
      match first_sig data i sigs with
      | Some nm => Some nm
      | None => scan_sigs data n' (S i)
      end
  end.

(** [for (i = 0; i < data.length - 8; i++)]: [length - 8] offsets, none
    when the length is at most 8. *)
Definition findSignature (data : list byte) : option string :=
  scan_sigs data (List.length data - 8) 0.

(** ** ByteStatistics *)

Definition is_printable (b : byte) : bool :=
  (32 <=? Byte.to_N b)%N && (Byte.to_N b <=? 126)%N.

Definition count_printable (data : list byte) : Z :=
  fold_left (fun count b => if is_printable b then count + 1 else count)
            data 0.

Definition printableFraction (data : list byte) : JS.num :=
  if len data =? 0 then JS.of_Z 0
  else JS.div (JS.of_Z (count_printable data)) (JS.of_Z (len data)).

(** [freq[i]++] on the 256-entry table. *)
Fixpoint incr_at (i : nat) (freq : list Z) : list Z :=
  match freq, i with
  | [], _ => []
  | c :: freq', O => (c + 1) :: freq'
  | c :: freq', S i' => c :: incr_at i' freq'
  end.

Definition byte_freq (data : list byte) : list Z :=
  fold_left (fun freq b => incr_at (Byte.to_nat b) freq)
            data (repeat 0 256).

Definition log2 (p : R) : R := (ln p / ln 2)%R.

(** One turn of [for (let c of freq) if (c) { ... }]. *)
Definition entropy_step (n : Z) (H : R) (c : Z) : R :=
  if c =? 0 then H
  else let p := (IZR c / IZR n)%R in (H - p * log2 p)%R.

Definition shannonEntropy (data : list byte) : R :=
  let freq := byte_freq data in
  let n := if len data =? 0 then 1 else len data in
  fold_left (entropy_step n) freq 0%R.

(** ** TailAnalyzer *)

Record SubScore : Type := { score : JS.num; summary : string }.

Definition analyzeTail (tail : list byte) : SubScore :=
  if len tail =? 0
  then {| score := JS.of_Z 0;
          summary := "No extra data found after image end." |}
  else
    let printable := printableFraction tail in
    let entropy := shannonEntropy tail in
    let sig := findSignature tail in
    let s := JS.of_Z 0 in
    let s := if 100 <? len tail then JS.add s (JS.of_Z 25) else s in
    let s := if JS.gt printable (JS.Fin (3 # 10))
             then JS.add s (JS.of_Z 25) else s in
    let s := if Rlt_dec 6.5 entropy
             then JS.add s (JS.of_Z 25) else s in
    let s := if JS.truthy sig then JS.add s (JS.of_Z 30) else s in
    let text :=
      ("Tail length: " ++ JS.int_toString (len tail)
       ++ " bytes, printable "
       ++ JS.toFixed (JS.mul printable (JS.of_Z 100)) 1
       ++ "%, entropy " ++ JS.toFixedR entropy 2 ++ ", "
       ++ match sig with
          | Some nm => if JS.truthy sig then "found signature " ++ nm
                       else "no known signature"
          | None => "no known signature"
          end
       ++ ".")%string in
    {| score := JS.Math_min (JS.of_Z 100) s; summary := text |}.

(** Format detection on the first bytes. *)
Definition isPNG (view : list byte) : bool :=
  byte_is view 0 x89 && byte_is view 1 x50
  && byte_is view 2 x4e && byte_is view 3 x47.

Definition isJPG (view : list byte) : bool :=
  byte_is view 0 xff && byte_is view 1 xd8 && byte_is view 2 xff.

(** The JPEG loop test: [view[i] === 0xFF && view[i + 1] === 0xD9]. *)
Definition eoi_at (view : list byte) (i : nat) : bool :=
  byte_is view i xff && byte_is view (i + 1) xd9.

(** The PNG loop test: the tag [IEND] at [i + 4 .. i + 7]. *)
Definition iend_at (view : list byte) (i : nat) : bool :=
  byte_is view (i + 4) x49 && byte_is view (i + 5) x45
  && byte_is view (i + 6) x4e && byte_is view (i + 7) x44.

(** [for (i = k - 1; i >= 0; i--)] looking for [FF D9]; [-1] when the loop
    ends without a match. *)
Fixpoint jpg_scan (view : list byte) (k : nat) : Z :=
  match k with
  | O => -1
  | S i => if eoi_at view i then Z.of_nat i + 2 else jpg_scan view i
  end.

(** The same loop looking for the tag [IEND] four bytes into a chunk. *)
Fixpoint png_scan (view : list byte) (k : nat) : Z :=
  match k with
  | O => -1
  | S i => if iend_at view i then Z.of_nat i + 12 else png_scan view i
  end.

(** [eofIndex] after the marker search: the JPEG loop starts at
    [length - 2], the PNG loop at [length - 12]. *)
Definition eofIndex (view : list byte) : Z :=
  if isJPG view then jpg_scan view (List.length view - 1)
  else if isPNG view then png_scan view (List.length view - 11)
  else -1.

Definition tailRegion (view : list byte) : list byte :=
  let e := eofIndex view in
  if (0 <? e) && (e <? len view) then slice view e else [].

(** ** PixelAnalyzer: [analyzeLSB] *)

(** [data[k] & 1]; an [undefined] sample gives 0. *)
Definition lsb_of (data : list byte) (k : nat) : N :=
  match nth_error data k with
  | Some b => N.land (Byte.to_N b) 1
  | None => 0%N
  end.

(** [(data[k] & 1) ? lsb1++ : lsb0++] on the pair [(lsb0, lsb1)]. *)
Definition lsb_step (data : list byte) (c : Z * Z) (k : nat) : Z * Z :=
  if (lsb_of data k =? 0)%N then (fst c + 1, snd c) else (fst c, snd c + 1).

(** The inner loop [for (j = 0; j < 3; j++)] of the pixel at [i]. *)
Definition lsb_pixel (data : list byte) (i : nat) (c : Z * Z) : Z * Z :=
  fold_left (fun c j => lsb_step data c (i + j)) [0; 1; 2]%nat c.

(** The pixel loop [for (i = ...; i < data.length; i += 4)]; [fuel] bounds
    the number of turns. *)
Fixpoint lsb_loop (data : list byte) (fuel i : nat) (c : Z * Z) : Z * Z :=
  match fuel with
  | O => c
  | S fuel' =>
      if (i <? List.length data)%nat
      then lsb_loop data fuel' (i + 4) (lsb_pixel data i c)
      else c
  end.

Definition lsb_counts (data : list byte) : Z * Z :=
  lsb_loop data (List.length data) 0 (0, 0).

Definition lsb_balance (lsb0 lsb1 : Z) : JS.num :=
  let total := lsb0 + lsb1 in
  JS.div (JS.Math_abs (JS.of_Z (lsb0 - lsb1))) (JS.of_Z total).

Definition analyzeLSB (data : list byte) : SubScore :=
  let (lsb0, lsb1) := lsb_counts data in
  let balance := lsb_balance lsb0 lsb1 in
  let s :=
    JS.Math_min (JS.of_Z 100)
      (JS.Math_round (JS.mul (JS.sub (JS.of_Z 1) balance) (JS.of_Z 100))) in
  let text :=
    ("LSB balance: " ++ JS.toFixed (JS.sub (JS.of_Z 1) balance) 2
     ++ ", 0s=" ++ JS.int_toString lsb0
     ++ ", 1s=" ++ JS.int_toString lsb1 ++ ".")%string in
  {| score := s; summary := text |}.

(** ** ScoreAggregator: the end of [analyzeImage] *)

(** The object [analyzeImage] returns; its [score] is [result_score]
    here. *)
Record AnalysisResult : Type := {
  level : string;
  result_score : JS.num;
  message : string;
  tailSummary : string;
  lsbSummary : string
}.

Definition combined_score (tailScore lsbScore : JS.num) : JS.num :=
  JS.Math_min (JS.of_Z 100)
    (JS.Math_round (JS.add (JS.mul tailScore (JS.Fin (6 # 10)))
                           (JS.mul lsbScore (JS.Fin (4 # 10))))).

Definition aggregate (tailInfo lsbInfo : SubScore) : AnalysisResult :=
  let s := combined_score (score tailInfo) (score lsbInfo) in
  let safe := ("✅ Image appears safe.", "safe")%string in
  let verdict :=
    if JS.ge s (JS.of_Z 60)
    then ("🚨 ALERT: Suspicious hidden data likely present!", "alert")%string
    else if JS.ge s (JS.of_Z 30)
    then ("⚠️ Warning: Possible hidden content detected.", "warn")%string
    else safe in
  {| level := snd verdict;
     result_score := s;
     message := fst verdict;
     tailSummary := summary tailInfo;
     lsbSummary := summary lsbInfo |}.

(** ** The arithmetic of the code in binary64

    The expressions of the code whose value the exact model above may
    miss by a rounding error, as JS computes them: every operation rounds
    to the nearest double.  [weighted] is the sum [tail * 0.6 + lsb * 0.4]
    for integer sub-scores (the literals are the doubles nearest to 0.6
    and 0.4), [lsb_value] the argument of [Math.round] in [analyzeLSB],
    [shannonEntropy] the loop of [shannonEntropy], [printable_percent]
    the percentage in the summary of [analyzeTail], [scaled_side] a side
    of the canvas of [getImageData].  [Math.log2] is
    implementation-approximated in ECMAScript, so it is a parameter. *)
Module Binary64.

Import PrimFloat.

Definition of_int (z : Z) : PrimFloat.float :=
  PrimFloat.of_uint63 (Uint63.of_Z z).

Definition weighted (tailScore lsbScore : Z) : PrimFloat.float :=
  PrimFloat.add
    (PrimFloat.mul (of_int tailScore) 0x1.3333333333333p-1%float)
    (PrimFloat.mul (of_int lsbScore) 0x1.999999999999ap-2%float).

(** [Math.round(x) = n] for a finite [x]: [n - 0.5 <= x < n + 0.5]. *)
Definition rounds_to (x : PrimFloat.float) (n : Z) : bool :=
  PrimFloat.leb (PrimFloat.sub (of_int n) 0.5%float) x
  && PrimFloat.ltb x (PrimFloat.add (of_int n) 0.5%float).

(** [(1 - Math.abs(lsb0 - lsb1) / total) * 100] of [analyzeLSB]. *)
Definition lsb_value (lsb0 lsb1 : Z) : PrimFloat.float :=
  let total := (lsb0 + lsb1)%Z in
  let balance :=
    PrimFloat.div (PrimFloat.abs (PrimFloat.sub (of_int lsb0) (of_int lsb1)))
                  (of_int total) in
  PrimFloat.mul (PrimFloat.sub 1%float balance) 100%float.

(** One turn of [for (let c of freq) if (c) { ... }]. *)
Definition entropy_step (Math_log2 : PrimFloat.float -> PrimFloat.float)
    (n : Z) (H : PrimFloat.float) (c : Z) : PrimFloat.float :=
  if (c =? 0)%Z then H
  else
    let p := PrimFloat.div (of_int c) (of_int n) in
    PrimFloat.sub H (PrimFloat.mul p (Math_log2 p)).

Definition entropy_loop (Math_log2 : PrimFloat.float -> PrimFloat.float)
    (n : Z) (freq : list Z) : PrimFloat.float :=
  fold_left (entropy_step Math_log2 n) freq 0%float.

Definition shannonEntropy (Math_log2 : PrimFloat.float -> PrimFloat.float)
    (data : list byte) : PrimFloat.float :=
  let freq := byte_freq data in
  let n := if (len data =? 0)%Z then 1%Z else len data in
  entropy_loop Math_log2 n freq.

(** [printable * 100] of [analyzeTail], the number that [toFixed(1)]
    prints, for [count] printable bytes among [length]. *)
Definition printable_percent (count length : Z) : PrimFloat.float :=
  PrimFloat.mul (PrimFloat.div (of_int count) (of_int length)) 100%float.

(** [side * Math.sqrt(maxPixels / (width * height))] of [getImageData],
    for an image over the pixel cap. *)
Definition scaled_side (side width height : Z) : PrimFloat.float :=
  PrimFloat.mul (of_int side)
    (PrimFloat.sqrt (PrimFloat.div (of_int 1000000)
                                   (of_int (width * height)))).

(** The two quotients [c / n] that the loop of [shannonEntropy] forms on
    a sequence of 59,300,353 bytes that holds the value 0 231,643 times
    and every other value 231,642 times; for each quotient, the double
    nearest to its logarithm, between its two neighbours. *)
Definition near_uniform_p0 : PrimFloat.float :=
  PrimFloat.div (of_int 231643) (of_int 59300353).

Definition near_uniform_p1 : PrimFloat.float :=
  PrimFloat.div (of_int 231642) (of_int 59300353).

Definition log2_p0 : PrimFloat.float := (-0x1.ffffe5fabd78fp+2)%float.

Definition log2_p1 : PrimFloat.float := (-0x1.0000000d0fb2dp+3)%float.

Definition log2_p0_candidates : list PrimFloat.float :=
  [(-0x1.ffffe5fabd790p+2)%float; log2_p0; (-0x1.ffffe5fabd78ep+2)%float].

Definition log2_p1_candidates : list PrimFloat.float :=
  [(-0x1.0000000d0fb2ep+3)%float; log2_p1; (-0x1.0000000d0fb2cp+3)%float].

(** The double that follows 8: 8.000000000000002. *)
Definition next_after_8 : PrimFloat.float := 0x1.0000000000001p+3%float.

(** A [Math.log2] that returns [l0] at [near_uniform_p0] and [l1]
    elsewhere. *)
Definition log2_with (l0 l1 : PrimFloat.float)
    : PrimFloat.float -> PrimFloat.float :=
  fun p => if PrimFloat.eqb p near_uniform_p0 then l0 else l1.

End Binary64.

(** [analyzeImage] on the file bytes and the pixel samples: the
    computation of lines 38 to 92, given the grid.  How a run obtains the
    grid, or fails to, is [analyzeImage_run] below. *)
Definition analyzeImage (view imageData : list byte) : AnalysisResult :=
  aggregate (analyzeTail (tailRegion view)) (analyzeLSB imageData).

(** * Notions the statements use, and example inputs *)

(** ** Patterns in a byte sequence *)

(** The bytes of [pat] stand in [data] from offset [i] on. *)
Definition occurs_at (data : list byte) (i : nat) (pat : list byte) : Prop :=
  firstn (List.length pat) (skipn i data) = pat.

(** Some entry of the signature table occurs at offset [i]. *)
Definition entry_at (data : list byte) (i : nat) : Prop :=
  exists s, In s sigs /\ occurs_at data i (bytes s).

Definition zip_magic : list byte := [x50; x4b; x03; x04].

(** A check by evaluation that no table entry occurs in [data] at an offset
    other than [skip]. *)
Definition no_entry_except (data : list byte) (skip : nat) : bool :=
  forallb (fun i => (i =? skip)%nat
                    || match first_sig data i sigs with
                       | None => true
                       | Some _ => false
                       end)
          (seq 0 (List.length data)).

Definition zip_at_10_long : list byte :=
  repeat x00 10 ++ zip_magic ++ repeat x00 5.

Definition zip_at_10_short : list byte := repeat x00 10 ++ zip_magic.

(** ** The tail scoring rule *)

(** The number of bytes of [data] in the printable range [32, 126]. *)
Definition printable_count (data : list byte) : Z :=
  Z.of_nat (List.length (filter is_printable data)).

(** The scoring rule of the specification: the points of a condition that
    holds, none otherwise. *)
Definition bonus (b : bool) (points : Z) : Z := if b then points else 0.

Definition tail_score_rule (t : list byte) : Z :=
  Z.min 100
    (bonus (100 <? len t) 25
     + bonus (3 * len t <? 10 * printable_count t) 25
     + bonus (if Rlt_dec 6.5 (shannonEntropy t) then true else false) 25
     + bonus (match findSignature t with Some _ => true | None => false end)
             30).

(** ** The frequency table and the entropy sum *)

Definition zsum (l : list Z) : Z := fold_right Z.add 0 l.

(** [n] increments of entry [i]. *)
Fixpoint add_at (i : nat) (n : Z) (freq : list Z) : list Z :=
  match freq, i with
  | [], _ => []
  | c :: freq', O => (c + n) :: freq'
  | c :: freq', S i' => c :: add_at i' n freq'
  end.

(** What one table entry [c] adds to [H]. *)
Definition entropy_term (n c : Z) : R :=
  if c =? 0 then 0%R
  else (- (IZR c / IZR n * log2 (IZR c / IZR n)))%R.

Definition entropy_sum (n : Z) (freq : list Z) : R :=
  fold_right (fun c s => (entropy_term n c + s)%R) 0%R freq.

(** ** Files and grids *)

Definition png_signature : list byte :=
  [x89; x50; x4e; x47; x0d; x0a; x1a; x0a].

Definition iend_tag : list byte := [x49; x45; x4e; x44].

(** The IEND chunk: length 0, the tag, the checksum. *)
Definition iend_chunk : list byte :=
  [x00; x00; x00; x00] ++ iend_tag ++ [xae; x42; x60; x82].

(** A PNG file: the signature, the chunk records before IEND (an IHDR and
    an IDAT chunk in a minimal file), the IEND chunk. *)
Definition png_file (chunks : list byte) : list byte :=
  png_signature ++ chunks ++ iend_chunk.

(** The IHDR and IDAT chunks of a 1 x 1 RGBA image. *)
Definition chunks_1x1 : list byte :=
  [x00; x00; x00; x0d; x49; x48; x44; x52;
   x00; x00; x00; x01; x00; x00; x00; x01; x08; x06; x00; x00; x00;
   x1f; x15; xc4; x89;
   x00; x00; x00; x0a; x49; x44; x41; x54;
   x78; x9c; x63; x00; x01; x00; x00; x05; x00; x01;
   x0d; x0a; x2d; xb4].

Definition png_1x1 : list byte := png_file chunks_1x1.

(** 200 printable bytes: the letter A; and the text IEND fifty times. *)
Definition extra_A : list byte := repeat x41 200.
Definition extra_IEND : list byte := List.concat (repeat iend_tag 50).

Definition jpg_with_tail : list byte :=
  [xff; xd8; xff; xe0; x01; xff; xd9; x41; x42].

(** Two grids that differ in the alpha samples and in upper bits only. *)
Definition grid_a : list byte := [x00; x01; x00; xff; x03; x02; x05; xff].
Definition grid_b : list byte := [xfe; x81; x10; x00; x01; x7e; xff; x80].

(** ** Further notions and inputs *)

(** The JPEG end-of-image marker. *)
Definition eoi_marker : list byte := [xff; xd9].

(** A file that starts like a JPEG and ends with the marker. *)
Definition jpeg_file (body : list byte) : list byte :=
  [xff; xd8; xff] ++ body ++ eoi_marker.

(** A 200-byte tail: a ZIP header and printable filler. *)
Definition tail_zip_200 : list byte := zip_magic ++ repeat x41 196.

(** The byte of value [n]. *)
Definition byte_of_index (n : nat) : byte :=
  match Byte.of_nat n with
  | Some b => b
  | None => x00
  end.

(** The 256 byte values in increasing order. *)
Definition all_bytes : list byte := map byte_of_index (seq 0 256).

(** How often the value [v] occurs in [data]. *)
Definition occurrences (v : byte) (data : list byte) : Z :=
  Z.of_nat (count_occ Byte.byte_eq_dec data v).

(** A 256-byte tail that begins with a ZIP header and holds every byte
    value once. *)
Definition tail_every_byte : list byte :=
  zip_magic
  ++ filter (fun b => negb (existsb (Byte.eqb b) zip_magic)) all_bytes.

(** The sample at position [k] is a colour sample (not the fourth of its
    pixel) with low bit 1. *)
Definition odd_sample (data : list byte) (k : nat) : bool :=
  negb (k mod 4 =? 3)%nat && negb (lsb_of data k =? 0)%N.

(** The number of such samples in the grid. *)
Definition odd_samples (data : list byte) : Z :=
  Z.of_nat (List.length (filter (odd_sample data)
                                (seq 0 (List.length data)))).

Definition swap_counts (c : Z * Z) : Z * Z := (snd c, fst c).

(** Two one-pixel grids with opposite low bits in the colour samples. *)
Definition pixel_010 : list byte := [x00; x01; x00; xff].
Definition pixel_101 : list byte := [x01; x00; x01; xff].

(** ** [getImageData]: the size of the canvas

    Only the size computation is modelled (the drawing is the browser's).
    [Math.sqrt] is the real square root; assigning a number to
    [canvas.width] stores its integer part modulo 2^32 (the conversion to an
    unsigned long). *)

Definition maxPixels : Z := 1000000.

Definition to_unsigned_long (x : R) : Z := Int_part x mod 2 ^ 32.

Definition canvas_scale (width height : Z) : R :=
  if maxPixels <? width * height
  then sqrt (IZR maxPixels / IZR (width * height))
  else 1%R.

(** [(canvas.width, canvas.height)] for an image of the given size. *)
Definition canvas_size (width height : Z) : Z * Z :=
  let scale := canvas_scale width height in
  (to_unsigned_long (IZR width * scale),
   to_unsigned_long (IZR height * scale)).

(** ** The run of [analyzeImage] from the decoded image on

    [analyzeLSB] is called once, on what [getImageData] returns, and
    [ctx.getImageData(0, 0, sw, sh)] throws an [IndexSizeError] when [sw]
    or [sh] is 0: the promise of [analyzeImage] is then rejected and no
    LSB sub-score and no aggregate score is computed.  Otherwise the grid
    holds the [sw * sh] pixels of the canvas, four samples each.

    An [Image] is what [loadImage] resolves to: its size, and the samples
    that [drawImage] leaves on the canvas ([drawn k] is the sample at index
    [k], row by row). *)

Inductive outcome (A : Type) : Type :=
| Returned (a : A)
| Thrown (name : string).

Arguments Returned {A} a.
Arguments Thrown {A} name.

Record Image : Type := {
  width : Z;
  height : Z;
  drawn : nat -> byte
}.

Definition ctx_getImageData (sw sh : Z) (canvas : nat -> byte)
    : outcome (list byte) :=
  if (sw =? 0) || (sh =? 0)
  then Thrown "IndexSizeError"
  else Returned (map canvas (seq 0 (Z.to_nat (4 * sw * sh)))).

Definition getImageData (img : Image) : outcome (list byte) :=
  let (cw, ch) := canvas_size (width img) (height img) in
  ctx_getImageData cw ch (drawn img).



Definition image_strip : Image :=
  {| width := 1; height := 2000000; drawn := fun _ => x00 |}.

(** ** A long, nearly uniform byte sequence

    [grouped k] holds every byte value [v] exactly [k v] times, in
    increasing order of the values. *)
Definition grouped (k : byte -> Z) : list byte :=
  List.concat (map (fun v => repeat v (Z.to_nat (k v))) all_bytes).

Definition near_uniform_count (v : byte) : Z :=
  if Byte.eqb v x00 then 231643 else 231642.

(** 59,300,353 bytes: the value 0 occurs 231,643 times, every other value
    231,642 times. *)
Definition near_uniform : list byte := grouped near_uniform_count.

(** * Properties *)

(** ** The model on small inputs *)

Example toFixed_third : JS.toFixed (JS.Fin (1 # 3)) 2 = "0.33"%string.
Proof. reflexivity. Qed.

Example toFixed_tie : JS.toFixed (JS.Fin (1005 # 1000)) 2 = "1.01"%string.
Proof. reflexivity. Qed.

Example toFixed_one_decimal :
  JS.toFixed (JS.Fin (995 # 10)) 1 = "99.5"%string.
Proof. reflexivity. Qed.

Example round_tie_up : JS.Math_round (JS.Fin (5 # 2)) = JS.of_Z 3.
Proof. reflexivity. Qed.

Example round_tie_up_negative :
  JS.Math_round (JS.Fin (- 5 # 2)) = JS.of_Z (-2).
Proof. reflexivity. Qed.

(** Every sample 0: all low bits are 0, balance 1, sub-score 0. *)
Example analyzeLSB_all_zero :
  analyzeLSB (repeat x00 8)
  = {| score := JS.of_Z 0; summary := "LSB balance: 0.00, 0s=6, 1s=0." |}.
Proof. reflexivity. Qed.

(** Even and odd samples in equal number: balance 0, sub-score 100. *)
Example analyzeLSB_alternating :
  analyzeLSB [x00; x01; x02; xff; x03; x04; x05; xff]
  = {| score := JS.of_Z 100; summary := "LSB balance: 1.00, 0s=3, 1s=3." |}.
Proof. reflexivity. Qed.

(** A last pixel cut short: the missing samples read as [undefined] and
    count as zeros. *)
Example analyzeLSB_short_pixel :
  analyzeLSB [x00; x01; x00; xff; x01]
  = {| score := JS.of_Z 67; summary := "LSB balance: 0.67, 0s=4, 1s=2." |}.
Proof. reflexivity. Qed.

Example findSignature_too_short :
  findSignature (zip_magic ++ repeat x00 4) = None.
Proof. reflexivity. Qed.

Example findSignature_in_reach :
  findSignature (zip_magic ++ repeat x00 5) = Some "ZIP"%string.
Proof. reflexivity. Qed.

Example tailRegion_jpg : tailRegion jpg_with_tail = [x41; x42].
Proof. reflexivity. Qed.

(** ** Array reads *)

Lemma byte_is_true (a : list byte) (i : nat) (b : byte) :
  byte_is a i b = true <-> nth_error a i = Some b.
Proof.
  unfold byte_is. destruct (nth_error a i) as [x|]; split; intro H.
  - apply Byte.byte_dec_bl in H. now subst.
  - injection H as ->. now apply Byte.byte_dec_lb.
  - discriminate.
  - discriminate.
Qed.

Lemma byte_is_out_of_range (a : list byte) (i : nat) (b : byte) :
  (List.length a <= i)%nat -> byte_is a i b = false.
Proof.
  intro H. unfold byte_is.
  now rewrite (proj2 (nth_error_None a i) H).
Qed.

Lemma byte_is_app_r (a1 a2 : list byte) (m : nat) (b : byte) :
  byte_is (a1 ++ a2) (List.length a1 + m) b = byte_is a2 m b.
Proof.
  unfold byte_is. rewrite nth_error_app2 by lia.
  now replace (List.length a1 + m - List.length a1)%nat with m by lia.
Qed.

Lemma skipn_nth_error_cons (a : list byte) (k : nat) (b : byte) :
  nth_error a k = Some b -> skipn k a = b :: skipn (S k) a.
Proof.
  revert k. induction a as [|x a IH]; intros [|k] H; simpl in *;
    try discriminate.
  - now injection H as ->.
  - now apply IH.
Qed.

(** ** What it means for a byte pattern to occur at an offset *)

Lemma match_bytes_spec (data : list byte) (pat : list byte) :
  forall k, match_bytes data k pat = true <-> occurs_at data k pat.
Proof.
  unfold occurs_at.
  induction pat as [|b pat IH]; intro k; simpl.
  - tauto.
  - destruct (byte_is data k b) eqn:E.
    + apply byte_is_true in E.
      rewrite (skipn_nth_error_cons _ _ _ E). rewrite IH.
      split; intro H.
      * now rewrite H.
      * now injection H.
    + split; [discriminate|]. intro H.
      assert (nth_error data k = Some b) as Hk.
      { destruct (skipn k data) as [|y r] eqn:Es; [discriminate|].
        injection H as -> _.
        rewrite <- (firstn_skipn k data) at 1. rewrite Es.
        destruct (Nat.le_gt_cases (List.length data) k) as [Hle|Hlt].
        - rewrite skipn_all2 in Es by exact Hle. discriminate.
        - rewrite nth_error_app2; rewrite length_firstn; try lia.
          replace (k - Nat.min k (List.length data))%nat with O by lia.
          reflexivity. }
      apply byte_is_true in Hk. congruence.
Qed.

Lemma match_bytes_false (data : list byte) (pat : list byte) (k : nat) :
  match_bytes data k pat = false <-> ~ occurs_at data k pat.
Proof.
  rewrite <- match_bytes_spec.
  destruct (match_bytes data k pat); split; intro H;
    try reflexivity; try discriminate; try tauto.
Qed.

(** ** [findSignature] *)

Lemma first_sig_none (data : list byte) (i : nat) (tbl : list signature) :
  first_sig data i tbl = None <->
  forall s, In s tbl -> ~ occurs_at data i (bytes s).
Proof.
  induction tbl as [|s tbl IH]; simpl.
  - split; [intros _ s []| reflexivity].
  - destruct (match_bytes data i (bytes s)) eqn:E.
    + split; [discriminate|]. intro H.
      apply match_bytes_spec in E. elim (H s (or_introl eq_refl) E).
    + rewrite IH. apply match_bytes_false in E.
      split.
      * intros H s' [<-|Hin]; auto.
      * intros H s' Hin. apply H. now right.
Qed.

(** At one offset the table yields nothing or one of four names: an [APK]
    match is always preceded by the [ZIP] match on the same bytes. *)
Lemma first_sig_names (data : list byte) (i : nat) :
  first_sig data i sigs = None \/
  first_sig data i sigs = Some "ZIP"%string \/
  first_sig data i sigs = Some "PDF"%string \/
  first_sig data i sigs = Some "RAR"%string \/
  first_sig data i sigs = Some "EXE"%string.
Proof.
  unfold sigs, first_sig, bytes, name.
  destruct (match_bytes data i [x50; x4b; x03; x04]); [tauto|].
  destruct (match_bytes data i [x25; x50; x44; x46]); [tauto|].
  destruct (match_bytes data i [x52; x61; x72; x21]); [tauto|].
  destruct (match_bytes data i [x4d; x5a]); tauto.
Qed.

Lemma scan_sigs_names (data : list byte) (n : nat) :
  forall i,
    scan_sigs data n i = None \/
    scan_sigs data n i = Some "ZIP"%string \/
    scan_sigs data n i = Some "PDF"%string \/
    scan_sigs data n i = Some "RAR"%string \/
    scan_sigs data n i = Some "EXE"%string.
Proof.
  induction n as [|n IH]; intro i; cbn [scan_sigs].
  - now left.
  - destruct (first_sig_names data i) as [E|[E|[E|[E|E]]]]; rewrite E;
      [apply IH | tauto ..].
Qed.

Lemma scan_sigs_none (data : list byte) (n : nat) :
  forall i,
    (forall k, (i <= k < i + n)%nat -> first_sig data k sigs = None) ->
    scan_sigs data n i = None.
Proof.
  induction n as [|n IH]; intros i H; cbn [scan_sigs].
  - reflexivity.
  - rewrite (H i) by lia. apply IH. intros k Hk. apply H. lia.
Qed.

Lemma scan_sigs_first (data : list byte) (nm : string) (n : nat) :
  forall i k,
    (i <= k < i + n)%nat ->
    (forall k', (i <= k' < k)%nat -> first_sig data k' sigs = None) ->
    first_sig data k sigs = Some nm ->
    scan_sigs data n i = Some nm.
Proof.
  induction n as [|n IH]; intros i k Hk Hbefore Hat; cbn [scan_sigs].
  - lia.
  - destruct (Nat.eq_dec i k) as [->|Hne].
    + now rewrite Hat.
    + rewrite (Hbefore i) by lia.
      apply (IH (S i) k); try lia; try assumption.
      intros k' Hk'. apply Hbefore. lia.
Qed.

Lemma occurs_at_in_range (data : list byte) (i : nat) (pat : list byte) :
  pat <> [] -> occurs_at data i pat -> (i < List.length data)%nat.
Proof.
  unfold occurs_at. intros Hne H.
  destruct (Nat.le_gt_cases (List.length data) i) as [Hle|Hlt]; [|exact Hlt].
  rewrite skipn_all2 in H by exact Hle. rewrite firstn_nil in H.
  now elim Hne.
Qed.

Lemma sigs_nonempty (s : signature) : In s sigs -> bytes s <> [].
Proof.
  unfold sigs. simpl. intros [<-|[<-|[<-|[<-|[<-|[]]]]]]; discriminate.
Qed.

Lemma no_entry_except_ok (data : list byte) (skip : nat) :
  no_entry_except data skip = true ->
  forall i, i <> skip -> ~ entry_at data i.
Proof.
  unfold no_entry_except. rewrite forallb_forall.
  intros H i Hi [s [Hin Hocc]].
  assert (i < List.length data)%nat as Hlt
      by (eapply occurs_at_in_range; eauto using sigs_nonempty).
  specialize (H i). rewrite in_seq in H. specialize (H ltac:(lia)).
  apply orb_true_iff in H. destruct H as [H|H].
  - apply Nat.eqb_eq in H. contradiction.
  - destruct (first_sig data i sigs) eqn:E; [discriminate|].
    rewrite first_sig_none in E. exact (E s Hin Hocc).
Qed.

(** C9: [findSignature] never answers [APK]: whatever the input, the result
    is none or one of [ZIP], [PDF], [RAR], [EXE].  The [APK] entry has the
    byte pattern of the [ZIP] entry, which stands before it in the table. *)
Theorem findSignature_never_APK :
  (forall data : list byte,
      findSignature data <> Some "APK"%string /\
      (findSignature data = None \/
       findSignature data = Some "ZIP"%string \/
       findSignature data = Some "PDF"%string \/
       findSignature data = Some "RAR"%string \/
       findSignature data = Some "EXE"%string)) /\
  map name (firstn 2 sigs) = ["ZIP"; "APK"]%string /\
  map bytes (firstn 2 sigs) = [zip_magic; zip_magic].
Proof.
  split; [|split; reflexivity].
  intro data. unfold findSignature.
  destruct (scan_sigs_names data (List.length data - 8) 0)
    as [E|[E|[E|[E|E]]]]; rewrite E; split; try discriminate; tauto.
Qed.

(** C7, as the code has it: with the pattern [50 4B 03 04] at offset 10, no
    table entry at another offset, and offset 10 inside the scanned range
    (length at least 19, so that [10 < length - 8]), the answer is [ZIP];
    with no table entry at any offset the answer is none. *)
Theorem findSignature_zip_at_10 :
  (forall data : list byte,
      (18 < List.length data)%nat ->
      occurs_at data 10 zip_magic ->
      (forall i, i <> 10%nat -> ~ entry_at data i) ->
      findSignature data = Some "ZIP"%string) /\
  (forall data : list byte,
      (forall i, ~ entry_at data i) ->
      findSignature data = None).
Proof.
  split.
  - intros data Hlen Hocc Hother. unfold findSignature.
    apply (scan_sigs_first data "ZIP" _ 0%nat 10%nat).
    + lia.
    + intros k Hk. apply first_sig_none. intros s Hin Hs.
      apply (Hother k ltac:(lia)). now exists s.
    + apply match_bytes_spec in Hocc. unfold sigs, zip_magic in *.
      cbn [first_sig bytes name]. now rewrite Hocc.
  - intros data Hnone. unfold findSignature.
    apply scan_sigs_none. intros k _. apply first_sig_none.
    intros s Hin Hs. apply (Hnone k). now exists s.
Qed.

Lemma findSignature_zip_at_10_witness :
  (18 < List.length zip_at_10_long)%nat /\
  occurs_at zip_at_10_long 10 zip_magic /\
  findSignature zip_at_10_long = Some "ZIP"%string.
Proof.
  split; [vm_compute; lia|]. split; [reflexivity|].
  apply (proj1 findSignature_zip_at_10).
  - vm_compute; lia.
  - reflexivity.
  - apply no_entry_except_ok. reflexivity.
Defined.

(** C7 as stated fails on a short buffer: the pattern sits at offset 10 and
    nothing else of the table occurs, but offset 10 is past the last offset
    the loop visits ([length - 8 = 6]). *)
Lemma findSignature_zip_at_10_short :
  occurs_at zip_at_10_short 10 zip_magic /\
  (forall i, i <> 10%nat -> ~ entry_at zip_at_10_short i) /\
  findSignature zip_at_10_short = None /\
  ~ (forall data : list byte,
        occurs_at data 10 zip_magic ->
        (forall i, i <> 10%nat -> ~ entry_at data i) ->
        findSignature data = Some "ZIP"%string).
Proof.
  assert (forall i, i <> 10%nat -> ~ entry_at zip_at_10_short i) as Hno
      by (apply no_entry_except_ok; reflexivity).
  repeat split; try reflexivity; try exact Hno.
  intro H. specialize (H zip_at_10_short eq_refl Hno). discriminate.
Qed.

(** ** [analyzeLSB] *)

Lemma lsb_of_out_of_range (data : list byte) (k : nat) :
  (List.length data <= k)%nat -> lsb_of data k = 0%N.
Proof.
  intro H. unfold lsb_of. now rewrite (proj2 (nth_error_None data k) H).
Qed.

Lemma lsb_step_total (data : list byte) (c : Z * Z) (k : nat) :
  let c' := lsb_step data c k in
  fst c <= fst c' /\ snd c <= snd c' /\ fst c' + snd c' = fst c + snd c + 1.
Proof.
  unfold lsb_step. destruct (lsb_of data k =? 0)%N; simpl; lia.
Qed.

Lemma lsb_pixel_total (data : list byte) (i : nat) (c : Z * Z) :
  let c' := lsb_pixel data i c in
  fst c <= fst c' /\ snd c <= snd c' /\ fst c' + snd c' = fst c + snd c + 3.
Proof.
  unfold lsb_pixel. cbn [fold_left].
  pose proof (lsb_step_total data c (i + 0)) as H0.
  pose proof (lsb_step_total data (lsb_step data c (i + 0)) (i + 1)) as H1.
  pose proof (lsb_step_total data
                (lsb_step data (lsb_step data c (i + 0)) (i + 1)) (i + 2))
    as H2.
  cbv zeta in *. lia.
Qed.

Lemma lsb_loop_mono (data : list byte) (fuel : nat) :
  forall i c,
    let c' := lsb_loop data fuel i c in
    fst c <= fst c' /\ snd c <= snd c'.
Proof.
  induction fuel as [|fuel IH]; intros i c; cbn [lsb_loop].
  - lia.
  - destruct (i <? List.length data)%nat; [|lia].
    pose proof (lsb_pixel_total data i c) as Hp.
    pose proof (IH (i + 4)%nat (lsb_pixel data i c)) as Hl.
    cbv zeta in *. lia.
Qed.

(** More fuel than pixels changes nothing: the bound [data.length] on the
    number of turns is never the reason the loop stops. *)
Lemma lsb_loop_fuel (data : list byte) (fuel : nat) :
  forall i c extra,
    (List.length data <= i + 4 * fuel)%nat ->
    lsb_loop data (fuel + extra) i c = lsb_loop data fuel i c.
Proof.
  induction fuel as [|fuel IH]; intros i c extra H.
  - cbn [Nat.add lsb_loop]. destruct extra as [|extra]; cbn [lsb_loop].
    + reflexivity.
    + destruct (i <? List.length data)%nat eqn:E; [|reflexivity].
      apply Nat.ltb_lt in E. lia.
  - cbn [Nat.add lsb_loop].
    destruct (i <? List.length data)%nat; [|reflexivity].
    apply IH. lia.
Qed.

Lemma lsb_counts_fuel (data : list byte) (extra : nat) :
  lsb_loop data (List.length data + extra) 0 (0, 0) = lsb_counts data.
Proof.
  unfold lsb_counts. apply lsb_loop_fuel. lia.
Qed.

Lemma lsb_counts_nonneg (data : list byte) :
  0 <= fst (lsb_counts data) /\ 0 <= snd (lsb_counts data).
Proof.
  unfold lsb_counts.
  pose proof (lsb_loop_mono data (List.length data) 0 (0, 0)) as H.
  cbv zeta in H. simpl in H. exact H.
Qed.

Lemma lsb_counts_nonempty (data : list byte) :
  data <> [] -> 3 <= fst (lsb_counts data) + snd (lsb_counts data).
Proof.
  intro Hne. unfold lsb_counts.
  destruct data as [|b data]; [now elim Hne|].
  cbn [List.length lsb_loop]. cbn [Nat.ltb Nat.leb].
  pose proof (lsb_pixel_total (b :: data) 0 (0, 0)) as Hp.
  pose proof (lsb_loop_mono (b :: data) (List.length data) (0 + 4)
                (lsb_pixel (b :: data) 0 (0, 0))) as Hl.
  cbv zeta in *. simpl fst in *. simpl snd in *. lia.
Qed.

Lemma lsb_counts_empty_iff (data : list byte) :
  fst (lsb_counts data) + snd (lsb_counts data) = 0 <-> data = [].
Proof.
  split.
  - intro H. destruct data as [|b data]; [reflexivity|].
    pose proof (lsb_counts_nonempty (b :: data) ltac:(discriminate)). lia.
  - intros ->. reflexivity.
Qed.

Lemma lsb_pixel_agree (d1 d2 : list byte) (i : nat) (c : Z * Z) :
  (forall j, (j < 3)%nat -> lsb_of d1 (i + j) = lsb_of d2 (i + j)) ->
  lsb_pixel d1 i c = lsb_pixel d2 i c.
Proof.
  intro H. unfold lsb_pixel. cbn [fold_left]. unfold lsb_step.
  rewrite (H 0%nat), (H 1%nat), (H 2%nat) by lia. reflexivity.
Qed.

Lemma lsb_loop_agree (d1 d2 : list byte) :
  List.length d1 = List.length d2 ->
  (forall k, (k mod 4 <> 3)%nat -> lsb_of d1 k = lsb_of d2 k) ->
  forall fuel i c,
    (i mod 4 = 0)%nat ->
    lsb_loop d1 fuel i c = lsb_loop d2 fuel i c.
Proof.
  intros Hlen Hbits. induction fuel as [|fuel IH]; intros i c Hi.
  - reflexivity.
  - cbn [lsb_loop]. rewrite <- Hlen.
    destruct (i <? List.length d1)%nat; [|reflexivity].
    rewrite (lsb_pixel_agree d1 d2 i c).
    + apply IH.
      rewrite Nat.Div0.add_mod by lia. rewrite Hi. reflexivity.
    + intros j Hj. apply Hbits.
      rewrite Nat.Div0.add_mod by lia. rewrite Hi.
      do 3 (destruct j as [|j]; [cbn; lia|]). lia.
Qed.

(** ** Rounding and clamping *)

Lemma Qfloor_half (z : Z) : Qfloor (inject_Z z + (1 # 2)) = z.
Proof.
  unfold Qfloor, Qplus, inject_Z. cbn [Qnum Qden].
  replace (Z.pos (1 * 2)) with 2 by reflexivity.
  symmetry. apply (Z.div_unique _ _ _ 1); lia.
Qed.

Lemma round_between (x : Q) (lo hi : Z) :
  (inject_Z lo <= x)%Q -> (x <= inject_Z hi)%Q ->
  lo <= Qfloor (x + (1 # 2)) <= hi.
Proof.
  intros Hlo Hhi. split.
  - rewrite <- (Qfloor_Z lo). apply Qfloor_resp_le.
    apply (Qle_trans _ x); [exact Hlo|].
    rewrite <- (Qplus_0_r x) at 1. apply Qplus_le_r. discriminate.
  - rewrite <- (Qfloor_half hi). apply Qfloor_resp_le.
    now apply Qplus_le_l.
Qed.


Lemma min_100_of_Z (z : Z) :
  JS.Math_min (JS.of_Z 100) (JS.of_Z z) = JS.of_Z (Z.min 100 z).
Proof.
  unfold JS.Math_min, JS.of_Z, Qle_bool, inject_Z. cbn [Qnum Qden].
  destruct (Z.leb_spec (100 * 1) (z * 1)).
  - now rewrite Z.min_l by lia.
  - now rewrite Z.min_r by lia.
Qed.

Lemma round_min_commute (a : JS.num) :
  JS.Math_min (JS.of_Z 100) (JS.Math_round a)
  = JS.Math_round (JS.Math_min (JS.of_Z 100) a).
Proof.
  destruct a as [x|[|]|]; try reflexivity.
  cbn [JS.Math_round]. rewrite min_100_of_Z.
  unfold JS.Math_min, JS.of_Z.
  destruct (Qle_bool (inject_Z 100) x) eqn:E; cbn [JS.Math_round JS.of_Z].
  - apply Qle_bool_iff in E.
    assert (100 <= Qfloor (x + (1 # 2))) as H.
    { rewrite <- (Qfloor_Z 100). apply Qfloor_resp_le. lra. }
    rewrite Z.min_l by exact H. reflexivity.
  - assert (x <= inject_Z 100)%Q as Hx.
    { destruct (Qlt_le_dec (inject_Z 100) x) as [Hlt|Hle]; [|exact Hle].
      apply Qlt_le_weak in Hlt. apply Qle_bool_iff in Hlt. congruence. }
    assert (Qfloor (x + (1 # 2)) <= 100) as H.
    { pose proof (Qfloor_resp_le (x + (1 # 2)) (inject_Z 100 + (1 # 2))
                    ltac:(lra)) as Hf.
      now rewrite Qfloor_half in Hf. }
    rewrite Z.min_r by exact H. reflexivity.
Qed.

(** ** The LSB sub-score of a grid with at least one sample *)

Lemma lsb_balance_nonempty (z o : Z) :
  0 <= z -> 0 <= o -> 0 < z + o ->
  exists b : Q, lsb_balance z o = JS.Fin b /\ (0 <= b)%Q /\ (b <= 1)%Q.
Proof.
  intros Hz Ho Ht. unfold lsb_balance, JS.Math_abs, JS.of_Z, JS.div.
  assert (JS.Qzero_bool (inject_Z (z + o)) = false) as E.
  { unfold JS.Qzero_bool. destruct (Qeq_bool (inject_Z (z + o)) 0) eqn:E;
      [|reflexivity].
    apply Qeq_bool_iff in E. unfold Qeq, inject_Z in E. cbn in E. lia. }
  rewrite E. eexists. split; [reflexivity|].
  assert (0 < inject_Z (z + o))%Q as Hpos
      by (change 0%Q with (inject_Z 0); now rewrite <- Zlt_Qlt).
  assert (Qabs (inject_Z (z - o)) <= inject_Z (z + o))%Q as Habs.
  { change (Qabs (inject_Z (z - o))) with (inject_Z (Z.abs (z - o))).
    rewrite <- Zle_Qle. lia. }
  split.
  - apply Qle_shift_div_l; [exact Hpos|].
    rewrite Qmult_0_l. apply Qabs_nonneg.
  - apply Qle_shift_div_r; [exact Hpos|]. now rewrite Qmult_1_l.
Qed.


(** The division of [lsb_balance] on the empty grid, in binary64: 0/0 is
    NaN there as it is in [JS.div]. *)
Lemma zero_div_zero_binary64 :
  PrimFloat.is_nan
    (PrimFloat.div (PrimFloat.abs (Binary64.of_int (0 - 0)))
                   (Binary64.of_int (0 + 0))) = true
  /\ lsb_balance 0 0 = JS.NaN.
Proof. split; reflexivity. Qed.

(** C10: two grids of the same size whose samples in the first three
    channels of every pixel have the same lowest bit get the same counts
    and the same sub-score and summary: neither the fourth (alpha) sample
    nor the upper seven bits of a sample reach the result. *)
Theorem analyzeLSB_low_bits_only (d1 d2 : list byte) :
  List.length d1 = List.length d2 ->
  (forall k, (k < List.length d1)%nat -> (k mod 4 <> 3)%nat ->
             lsb_of d1 k = lsb_of d2 k) ->
  lsb_counts d1 = lsb_counts d2 /\
  score (analyzeLSB d1) = score (analyzeLSB d2) /\
  summary (analyzeLSB d1) = summary (analyzeLSB d2) /\
  analyzeLSB d1 = analyzeLSB d2.
Proof.
  intros Hlen Hbits.
  assert (lsb_counts d1 = lsb_counts d2) as Hc.
  { unfold lsb_counts. rewrite <- Hlen.
    apply lsb_loop_agree; try assumption; try reflexivity.
    intros k Hk.
    destruct (Nat.lt_ge_cases k (List.length d1)) as [Hin|Hout].
    - now apply Hbits.
    - rewrite !lsb_of_out_of_range by lia. reflexivity. }
  unfold analyzeLSB. rewrite Hc. repeat split; reflexivity.
Qed.

Lemma analyzeLSB_low_bits_only_witness :
  List.length grid_a = List.length grid_b /\
  analyzeLSB grid_a = analyzeLSB grid_b.
Proof.
  split; [reflexivity|].
  apply (analyzeLSB_low_bits_only grid_a grid_b).
  - reflexivity.
  - intros k Hk Hmod.
    do 8 (destruct k as [|k]; [try reflexivity; now elim Hmod|]).
    simpl in Hk. lia.
Defined.

(** ** [printableFraction] and the tail score *)

Lemma count_printable_spec (data : list byte) :
  count_printable data = printable_count data.
Proof.
  unfold count_printable, printable_count.
  assert (forall acc,
             fold_left (fun count b =>
                          if is_printable b then count + 1 else count)
                       data acc
             = acc + Z.of_nat (List.length (filter is_printable data))) as H.
  { induction data as [|b data IH]; intro acc; cbn [fold_left filter].
    - cbn. lia.
    - rewrite IH. destruct (is_printable b); cbn [List.length]; lia. }
  now rewrite H.
Qed.

Lemma len_nonempty (data : list byte) : data <> [] -> 0 < len data.
Proof.
  destruct data; [congruence|]. intros _. unfold len. cbn [List.length]. lia.
Qed.

Lemma printableFraction_nonempty (data : list byte) :
  data <> [] ->
  printableFraction data
  = JS.Fin (inject_Z (printable_count data) / inject_Z (len data)).
Proof.
  intro Hne. pose proof (len_nonempty data Hne) as Hl.
  unfold printableFraction. rewrite count_printable_spec.
  destruct (Z.eqb_spec (len data) 0) as [E|_]; [lia|].
  unfold JS.div, JS.of_Z, JS.Qzero_bool.
  destruct (Qeq_bool (inject_Z (len data)) 0) eqn:E; [|reflexivity].
  apply Qeq_bool_iff in E. unfold Qeq, inject_Z in E. cbn in E. lia.
Qed.

(** [printable > 0.3] says that more than three bytes in ten are
    printable. *)
Lemma printable_gt_spec (data : list byte) :
  data <> [] ->
  JS.gt (printableFraction data) (JS.Fin (3 # 10))
  = (3 * len data <? 10 * printable_count data).
Proof.
  intro Hne. rewrite (printableFraction_nonempty data Hne).
  pose proof (len_nonempty data Hne) as Hl.
  cbn [JS.gt]. destruct (len data) as [|p|p]; try lia.
  unfold Qle_bool, Qdiv, Qmult, Qinv, inject_Z. cbn [Qnum Qden].
  destruct (Z.ltb_spec (3 * Z.pos p) (10 * printable_count data));
    destruct (Z.leb_spec (printable_count data * 1 * 10)
                         (3 * Z.pos (1 * p))); try reflexivity; lia.
Qed.

Lemma printableFraction_range (data : list byte) :
  JS.within 0 1 (printableFraction data).
Proof.
  destruct data as [|b data].
  - cbn. split; discriminate.
  - rewrite printableFraction_nonempty by discriminate.
    pose proof (len_nonempty (b :: data) ltac:(discriminate)) as Hl.
    assert (0 <= printable_count (b :: data) <= len (b :: data)) as Hc.
    { unfold printable_count, len.
      pose proof (filter_length_le is_printable (b :: data)). lia. }
    assert (0 < inject_Z (len (b :: data)))%Q as Hpos
        by (change 0%Q with (inject_Z 0); now rewrite <- Zlt_Qlt).
    cbn [JS.within]. split.
    + apply Qle_shift_div_l; [exact Hpos|]. rewrite Qmult_0_l.
      change 0%Q with (inject_Z 0). rewrite <- Zle_Qle. lia.
    + apply Qle_shift_div_r; [exact Hpos|]. rewrite Qmult_1_l.
      rewrite <- Zle_Qle. lia.
Qed.

Lemma findSignature_truthy (data : list byte) :
  JS.truthy (findSignature data)
  = match findSignature data with Some _ => true | None => false end.
Proof.
  unfold findSignature.
  destruct (scan_sigs_names data (List.length data - 8) 0)
    as [E|[E|[E|[E|E]]]]; rewrite E; reflexivity.
Qed.

Lemma analyzeTail_score_rule (t : list byte) :
  t <> [] -> score (analyzeTail t) = JS.of_Z (tail_score_rule t).
Proof.
  intro Hne. pose proof (len_nonempty t Hne) as Hl.
  unfold analyzeTail, tail_score_rule.
  destruct (Z.eqb_spec (len t) 0) as [E|_]; [lia|].
  cbn [score]. rewrite (printable_gt_spec t Hne), findSignature_truthy.
  destruct (100 <? len t);
    destruct (3 * len t <? 10 * printable_count t);
    destruct (Rlt_dec 6.5 (shannonEntropy t));
    destruct (findSignature t); reflexivity.
Qed.

Lemma tail_score_rule_range (t : list byte) : 0 <= tail_score_rule t <= 100.
Proof.
  unfold tail_score_rule, bonus.
  destruct (100 <? len t);
    destruct (3 * len t <? 10 * printable_count t);
    destruct (Rlt_dec 6.5 (shannonEntropy t));
    destruct (findSignature t); lia.
Qed.


(** C3: an empty tail scores 0 with the fixed summary; a non-empty tail
    scores [min(100, s)], [s] being 25 for a length above 100, 25 for more
    than 30% printable bytes, 25 for an entropy above 6.5 and 30 for a
    signature match. *)
Theorem analyzeTail_score :
  analyzeTail []
  = {| score := JS.of_Z 0;
       summary := "No extra data found after image end." |} /\
  (forall t : list byte,
      t <> [] ->
      score (analyzeTail t) = JS.of_Z (tail_score_rule t) /\
      JS.gt (printableFraction t) (JS.Fin (3 # 10))
      = (3 * len t <? 10 * printable_count t)).
Proof.
  split; [reflexivity|]. intros t Hne. split.
  - now apply analyzeTail_score_rule.
  - now apply printable_gt_spec.
Qed.

(** ** The aggregate score *)

Lemma ge_of_Z (n m : Z) : JS.ge (JS.of_Z n) (JS.of_Z m) = (m <=? n).
Proof.
  unfold JS.ge, JS.of_Z, Qle_bool, inject_Z. cbn [Qnum Qden].
  now rewrite !Z.mul_1_r.
Qed.

Lemma combined_score_fin (t l : Q) :
  (0 <= t)%Q -> (t <= 100)%Q -> (0 <= l)%Q -> (l <= 100)%Q ->
  exists n : Z,
    combined_score (JS.Fin t) (JS.Fin l) = JS.of_Z n /\
    n = Qfloor (t * (6 # 10) + l * (4 # 10) + (1 # 2)) /\
    0 <= n <= 100.
Proof.
  intros Ht0 Ht1 Hl0 Hl1.
  pose proof (round_between (t * (6 # 10) + l * (4 # 10)) 0 100) as H.
  change (inject_Z 100) with 100%Q in H. change (inject_Z 0) with 0%Q in H.
  specialize (H ltac:(lra) ltac:(lra)).
  exists (Qfloor (t * (6 # 10) + l * (4 # 10) + (1 # 2))).
  split; [|split; [reflexivity|exact H]].
  unfold combined_score. cbn [JS.mul JS.add JS.Math_round].
  rewrite min_100_of_Z. now rewrite Z.min_r by lia.
Qed.

(** For integer sub-scores in [0,100], which is what [analyzeTail] and
    [analyzeLSB] return, the exact weighted sum and the binary64 one round
    to the same integer: the rounding error of binary64 does not reach the
    aggregate score. *)
Lemma combined_score_binary64 (t l : Z) :
  0 <= t <= 100 -> 0 <= l <= 100 ->
  exists n : Z,
    combined_score (JS.of_Z t) (JS.of_Z l) = JS.of_Z n /\
    0 <= n <= 100 /\
    Binary64.rounds_to (Binary64.weighted t l) n = true.
Proof.
  intros Ht Hl.
  assert (forallb
            (fun a =>
               forallb
                 (fun b =>
                    Binary64.rounds_to
                      (Binary64.weighted (Z.of_nat a) (Z.of_nat b))
                      (Qfloor (inject_Z (Z.of_nat a) * (6 # 10)
                               + inject_Z (Z.of_nat b) * (4 # 10) + (1 # 2))))
                 (seq 0 101))
            (seq 0 101) = true) as Hall by (vm_compute; reflexivity).
  rewrite forallb_forall in Hall.
  specialize (Hall (Z.to_nat t)). rewrite in_seq in Hall.
  specialize (Hall ltac:(lia)). rewrite forallb_forall in Hall.
  specialize (Hall (Z.to_nat l)). rewrite in_seq in Hall.
  specialize (Hall ltac:(lia)). rewrite !Z2Nat.id in Hall by lia.
  assert (0 <= inject_Z t)%Q by (change 0%Q with (inject_Z 0); rewrite <- Zle_Qle; lia).
  assert (inject_Z t <= 100)%Q by (change 100%Q with (inject_Z 100); rewrite <- Zle_Qle; lia).
  assert (0 <= inject_Z l)%Q by (change 0%Q with (inject_Z 0); rewrite <- Zle_Qle; lia).
  assert (inject_Z l <= 100)%Q by (change 100%Q with (inject_Z 100); rewrite <- Zle_Qle; lia).
  destruct (combined_score_fin (inject_Z t) (inject_Z l)) as [n [E [En Hn]]];
    try assumption.
  exists n. split; [exact E|]. split; [exact Hn|]. now rewrite En.
Qed.


Lemma aggregate_level (ti li : SubScore) (n : Z) :
  result_score (aggregate ti li) = JS.of_Z n ->
  (60 <= n -> level (aggregate ti li) = "alert"%string) /\
  (30 <= n < 60 -> level (aggregate ti li) = "warn"%string) /\
  (n < 30 -> level (aggregate ti li) = "safe"%string).
Proof.
  unfold aggregate. cbn [result_score level]. intros ->.
  rewrite !ge_of_Z.
  destruct (Z.leb_spec 60 n); destruct (Z.leb_spec 30 n); cbn [snd];
    repeat split; intros; try reflexivity; lia.
Qed.

(** C2: for sub-scores in [0,100] the combined score is
    [round(min(100, tail * 0.6 + lsb * 0.4))], an integer in [0,100]; the
    level is [alert] from 60 on, [warn] from 30 on below 60, [safe] below
    30; and (100,100), (0,0), (50,50) give 100 [alert], 0 [safe],
    50 [warn]. *)
Theorem aggregate_score_and_level :
  (forall (ti li : SubScore) (t l : Q),
      score ti = JS.Fin t -> score li = JS.Fin l ->
      (0 <= t)%Q /\ (t <= 100)%Q -> (0 <= l)%Q /\ (l <= 100)%Q ->
      let r := aggregate ti li in
      result_score r
      = JS.Math_round
          (JS.Math_min (JS.of_Z 100)
             (JS.add (JS.mul (JS.Fin t) (JS.Fin (6 # 10)))
                     (JS.mul (JS.Fin l) (JS.Fin (4 # 10))))) /\
      exists n : Z,
        result_score r = JS.of_Z n /\ 0 <= n <= 100 /\
        (60 <= n -> level r = "alert"%string) /\
        (30 <= n < 60 -> level r = "warn"%string) /\
        (n < 30 -> level r = "safe"%string)) /\
  (forall s1 s2 : string,
      let sub (n : Z) (s : string) := {| score := JS.of_Z n; summary := s |} in
      (result_score (aggregate (sub 100 s1) (sub 100 s2)) = JS.of_Z 100 /\
       level (aggregate (sub 100 s1) (sub 100 s2)) = "alert"%string) /\
      (result_score (aggregate (sub 0 s1) (sub 0 s2)) = JS.of_Z 0 /\
       level (aggregate (sub 0 s1) (sub 0 s2)) = "safe"%string) /\
      (result_score (aggregate (sub 50 s1) (sub 50 s2)) = JS.of_Z 50 /\
       level (aggregate (sub 50 s1) (sub 50 s2)) = "warn"%string)).
Proof.
  split.
  - intros ti li t l Et El [Ht0 Ht1] [Hl0 Hl1] r. subst r. split.
    + unfold aggregate. cbn [result_score]. rewrite Et, El.
      unfold combined_score. apply round_min_commute.
    + destruct (combined_score_fin t l Ht0 Ht1 Hl0 Hl1) as [n [E [_ Hn]]].
      exists n.
      assert (result_score (aggregate ti li) = JS.of_Z n) as Er
          by (unfold aggregate; cbn [result_score]; now rewrite Et, El).
      split; [exact Er|]. split; [exact Hn|].
      now apply aggregate_level.
  - intros s1 s2 sub. repeat split.
Qed.

Lemma aggregate_score_and_level_witness :
  let ti := {| score := JS.of_Z 75; summary := "tail" |} in
  let li := {| score := JS.of_Z 48; summary := "lsb" |} in
  result_score (aggregate ti li) = JS.of_Z 64 /\
  level (aggregate ti li) = "alert"%string.
Proof.
  intros ti li.
  assert ((0 <= 75)%Q /\ (75 <= 100)%Q) as Ht by (split; discriminate).
  assert ((0 <= 48)%Q /\ (48 <= 100)%Q) as Hl by (split; discriminate).
  destruct (proj1 aggregate_score_and_level ti li 75%Q 48%Q
              eq_refl eq_refl Ht Hl)
    as [_ [n [En [_ [Halert _]]]]].
  assert (n = 64) as -> by (vm_compute in En; now injection En).
  split; [exact En|]. apply Halert. lia.
Defined.

(** ** Score ranges *)


(** ** The end-of-data offset and the tail region *)

Lemma jpg_scan_range (view : list byte) (k : nat) :
  jpg_scan view k = -1 \/ 2 <= jpg_scan view k <= Z.of_nat k + 1.
Proof.
  induction k as [|k IH]; cbn [jpg_scan].
  - now left.
  - destruct (eoi_at view k); [right; lia|].
    destruct IH as [IH|IH]; [now left|right; lia].
Qed.

Lemma png_scan_range (view : list byte) (k : nat) :
  png_scan view k = -1 \/ 12 <= png_scan view k <= Z.of_nat k + 11.
Proof.
  induction k as [|k IH]; cbn [png_scan].
  - now left.
  - destruct (iend_at view k); [right; lia|].
    destruct IH as [IH|IH]; [now left|right; lia].
Qed.

Lemma eofIndex_range (view : list byte) :
  eofIndex view = -1 \/ 0 < eofIndex view <= len view.
Proof.
  unfold eofIndex, len.
  destruct (isJPG view).
  - destruct (List.length view) as [|n] eqn:E; [now left|].
    cbn [Nat.sub]. rewrite Nat.sub_0_r.
    destruct (jpg_scan_range view n) as [H|H]; [now left|right; lia].
  - destruct (isPNG view); [|now left].
    destruct (Nat.le_gt_cases (List.length view) 11) as [Hle|Hgt].
    + replace (List.length view - 11)%nat with O by lia. now left.
    + destruct (png_scan_range view (List.length view - 11)) as [H|H];
        [now left|right; lia].
Qed.

(** The scan answers the largest offset below [k] at which the test
    holds. *)
Lemma png_scan_found (view : list byte) (i : nat) :
  iend_at view i = true ->
  forall k,
    (i < k)%nat ->
    (forall j, (i < j < k)%nat -> iend_at view j = false) ->
    png_scan view k = Z.of_nat i + 12.
Proof.
  intros Hi. induction k as [|k IH]; intros Hk Hafter; [lia|].
  cbn [png_scan]. destruct (Nat.eq_dec i k) as [<-|Hne].
  - now rewrite Hi.
  - rewrite (Hafter k) by lia. apply IH; [lia|].
    intros j Hj. apply Hafter. lia.
Qed.

Lemma jpg_scan_found (view : list byte) (i : nat) :
  eoi_at view i = true ->
  forall k,
    (i < k)%nat ->
    (forall j, (i < j < k)%nat -> eoi_at view j = false) ->
    jpg_scan view k = Z.of_nat i + 2.
Proof.
  intros Hi. induction k as [|k IH]; intros Hk Hafter; [lia|].
  cbn [jpg_scan]. destruct (Nat.eq_dec i k) as [<-|Hne].
  - now rewrite Hi.
  - rewrite (Hafter k) by lia. apply IH; [lia|].
    intros j Hj. apply Hafter. lia.
Qed.

(** C5: when the end-of-data offset [e] is strictly between 0 and the
    buffer length, the tail is the suffix of the buffer from [e] on, of
    length [length - e]; otherwise the tail is empty.  The offset is [-1]
    when the format is unknown or no marker is found, and never exceeds the
    buffer length. *)
Theorem tailRegion_suffix (view : list byte) :
  let e := eofIndex view in
  (0 < e < len view ->
   tailRegion view = skipn (Z.to_nat e) view /\
   view = firstn (Z.to_nat e) view ++ tailRegion view /\
   len (tailRegion view) = len view - e) /\
  (~ 0 < e < len view -> tailRegion view = []) /\
  (isJPG view = false -> isPNG view = false -> e = -1) /\
  (e = -1 \/ 0 < e <= len view).
Proof.
  intro e. subst e. unfold tailRegion, slice.
  repeat split.
  - destruct (Z.ltb_spec 0 (eofIndex view));
      destruct (Z.ltb_spec (eofIndex view) (len view));
      cbn [andb]; try reflexivity; lia.
  - destruct (Z.ltb_spec 0 (eofIndex view));
      destruct (Z.ltb_spec (eofIndex view) (len view));
      cbn [andb]; try lia.
    symmetry. apply firstn_skipn.
  - destruct (Z.ltb_spec 0 (eofIndex view));
      destruct (Z.ltb_spec (eofIndex view) (len view));
      cbn [andb]; try lia.
    unfold len in *. rewrite length_skipn. lia.
  - intro Hout.
    destruct (Z.ltb_spec 0 (eofIndex view));
      destruct (Z.ltb_spec (eofIndex view) (len view));
      cbn [andb]; try reflexivity; lia.
  - intros Hj Hp. unfold eofIndex. now rewrite Hj, Hp.
  - apply eofIndex_range.
Qed.

Lemma tailRegion_suffix_witness :
  0 < eofIndex jpg_with_tail < len jpg_with_tail /\
  tailRegion jpg_with_tail = [x41; x42] /\
  len (tailRegion jpg_with_tail) = 2.
Proof.
  assert (0 < eofIndex jpg_with_tail < len jpg_with_tail) as H
      by (vm_compute; split; reflexivity).
  destruct (proj1 (tailRegion_suffix jpg_with_tail) H) as [E1 [_ E2]].
  split; [exact H|]. split.
  - rewrite E1. reflexivity.
  - rewrite E2. reflexivity.
Defined.

(** ** A PNG file with and without appended bytes *)

Lemma iend_at_app_r (a r : list byte) (m : nat) :
  iend_at (a ++ r) (List.length a + m) = iend_at r m.
Proof.
  unfold iend_at. rewrite <- !Nat.add_assoc, !byte_is_app_r. reflexivity.
Qed.

Lemma iend_at_after_chunk (extra : list byte) (m : nat) :
  (1 <= m)%nat ->
  (forall p, (p + 8 <= List.length extra)%nat -> ~ occurs_at extra p iend_tag) ->
  (m <= List.length extra)%nat ->
  iend_at (iend_chunk ++ extra) m = false.
Proof.
  intros Hm Hno Hlen.
  do 8 (destruct m as [|m]; [try lia; reflexivity|]).
  unfold iend_at.
  replace (S (S (S (S (S (S (S (S m))))))) + 4)%nat
    with (List.length iend_chunk + m)%nat by (cbn; lia).
  replace (S (S (S (S (S (S (S (S m))))))) + 5)%nat
    with (List.length iend_chunk + S m)%nat by (cbn; lia).
  replace (S (S (S (S (S (S (S (S m))))))) + 6)%nat
    with (List.length iend_chunk + S (S m))%nat by (cbn; lia).
  replace (S (S (S (S (S (S (S (S m))))))) + 7)%nat
    with (List.length iend_chunk + S (S (S m)))%nat by (cbn; lia).
  rewrite !byte_is_app_r.
  specialize (Hno m ltac:(lia)). apply match_bytes_false in Hno.
  unfold iend_tag in Hno. cbn [match_bytes] in Hno.
  destruct (byte_is extra m x49); [|reflexivity].
  destruct (byte_is extra (S m) x45); [|reflexivity].
  destruct (byte_is extra (S (S m)) x4e); [|reflexivity].
  destruct (byte_is extra (S (S (S m))) x44); [discriminate|reflexivity].
Qed.

(** The offset found in a PNG file followed by bytes that do not show the
    tag [IEND] to the scan is the end of the IEND chunk. *)
Lemma eofIndex_png (chunks extra : list byte) :
  (forall p, (p + 8 <= List.length extra)%nat -> ~ occurs_at extra p iend_tag) ->
  eofIndex (png_file chunks ++ extra) = len (png_file chunks).
Proof.
  intro Hno. unfold eofIndex.
  assert (isJPG (png_file chunks ++ extra) = false) as -> by reflexivity.
  assert (isPNG (png_file chunks ++ extra) = true) as -> by reflexivity.
  unfold png_file.
  set (a := png_signature ++ chunks).
  replace ((png_signature ++ chunks ++ iend_chunk) ++ extra)
    with (a ++ iend_chunk ++ extra)
    by (unfold a; now rewrite <- !app_assoc).
  replace (png_signature ++ chunks ++ iend_chunk) with (a ++ iend_chunk)
    by (unfold a; now rewrite <- app_assoc).
  rewrite (png_scan_found _ (List.length a)).
  - unfold len. rewrite length_app. cbn [List.length iend_chunk app iend_tag].
    lia.
  - pose proof (iend_at_app_r a (iend_chunk ++ extra) 0) as H0.
    rewrite Nat.add_0_r in H0. rewrite H0. reflexivity.
  - rewrite !length_app. cbn [List.length iend_chunk app iend_tag]. lia.
  - intros j Hj. rewrite !length_app in Hj.
    cbn [List.length iend_chunk app iend_tag] in Hj.
    replace j with (List.length a + (j - List.length a))%nat by lia.
    rewrite iend_at_app_r. apply iend_at_after_chunk; try assumption; lia.
Qed.

Lemma tailRegion_png (chunks extra : list byte) :
  (forall p, (p + 8 <= List.length extra)%nat -> ~ occurs_at extra p iend_tag) ->
  tailRegion (png_file chunks ++ extra) = extra.
Proof.
  intro Hno. unfold tailRegion. rewrite (eofIndex_png chunks extra Hno).
  assert (0 < len (png_file chunks)) as Hpos
      by (unfold len, png_file; rewrite length_app; cbn [List.length png_signature]; lia).
  rewrite (proj2 (Z.ltb_lt _ _) Hpos). cbn [andb].
  destruct (Z.ltb_spec (len (png_file chunks))
                       (len (png_file chunks ++ extra))) as [Hlt|Hge].
  - unfold slice, len. rewrite Nat2Z.id.
    rewrite skipn_app, skipn_all, Nat.sub_diag. reflexivity.
  - unfold len in Hge. rewrite length_app in Hge.
    destruct extra; [reflexivity|cbn [List.length] in Hge; lia].
Qed.

Lemma printable_count_all (data : list byte) :
  forallb is_printable data = true -> printable_count data = len data.
Proof.
  unfold printable_count, len. intro H. f_equal.
  induction data as [|b data IH]; [reflexivity|].
  cbn [forallb] in H. apply andb_true_iff in H. destruct H as [Hb Hd].
  cbn [filter]. rewrite Hb. cbn [List.length]. now rewrite IH.
Qed.

(** C6, as the code has it: a PNG file that ends with its IEND chunk has an
    empty tail and tail sub-score 0; with 200 bytes appended that are all
    printable ([32..126]) and show no tag [IEND] at an offset the backward
    scan visits ([0..192]), the tail is those 200 bytes and the sub-score
    is at least 50. *)
Theorem png_tail (chunks extra : list byte) :
  (tailRegion (png_file chunks) = [] /\
   score (analyzeTail (tailRegion (png_file chunks))) = JS.of_Z 0) /\
  (List.length extra = 200%nat ->
   forallb is_printable extra = true ->
   (forall p, (p <= 192)%nat -> ~ occurs_at extra p iend_tag) ->
   tailRegion (png_file chunks ++ extra) = extra /\
   len (tailRegion (png_file chunks ++ extra)) = 200 /\
   exists n : Z,
     score (analyzeTail (tailRegion (png_file chunks ++ extra))) = JS.of_Z n
     /\ 50 <= n <= 100).
Proof.
  split.
  - assert (tailRegion (png_file chunks) = []) as E.
    { rewrite <- (app_nil_r (png_file chunks)) at 1.
      apply tailRegion_png. intros p Hp. cbn in Hp. lia. }
    rewrite E. split; reflexivity.
  - intros Hlen Hprint Hno.
    assert (tailRegion (png_file chunks ++ extra) = extra) as E.
    { apply tailRegion_png. intros p Hp. apply Hno. lia. }
    rewrite E. split; [reflexivity|].
    assert (len extra = 200) as Hl by (unfold len; now rewrite Hlen).
    split; [exact Hl|].
    assert (extra <> []) as Hne by (intros ->; discriminate).
    exists (tail_score_rule extra). split.
    + now apply analyzeTail_score_rule.
    + split; [|apply tail_score_rule_range].
      unfold tail_score_rule. rewrite (printable_count_all extra Hprint), Hl.
      cbn [Z.ltb Z.mul Z.compare Pos.mul Pos.compare Pos.compare_cont bonus].
      unfold bonus.
      destruct (Rlt_dec 6.5 (shannonEntropy extra));
        destruct (findSignature extra); cbn; lia.
Qed.

Lemma png_tail_witness :
  List.length extra_A = 200%nat /\
  forallb is_printable extra_A = true /\
  tailRegion (png_1x1 ++ extra_A) = extra_A /\
  len (tailRegion (png_1x1 ++ extra_A)) = 200.
Proof.
  split; [reflexivity|]. split; [reflexivity|].
  assert (forall p, (p <= 192)%nat -> ~ occurs_at extra_A p iend_tag) as Hno.
  { intros p Hp. apply match_bytes_false.
    unfold iend_tag. cbn [match_bytes].
    assert (byte_is extra_A p x49 = false) as ->; [|reflexivity].
    unfold byte_is, extra_A.
    rewrite (nth_error_repeat x41) by lia. reflexivity. }
  destruct (proj2 (png_tail chunks_1x1 extra_A) eq_refl eq_refl Hno)
    as [E1 [E2 _]].
  split; assumption.
Defined.

(** C6 as stated fails when the appended ASCII bytes carry the text IEND:
    the backward scan stops at the last such tag, here at the very end of
    the file, so the tail is empty and scores 0. *)
Lemma png_tail_IEND_text :
  List.length extra_IEND = 200%nat /\
  forallb is_printable extra_IEND = true /\
  tailRegion (png_1x1 ++ extra_IEND) = [] /\
  len (tailRegion (png_1x1 ++ extra_IEND)) <> 200 /\
  score (analyzeTail (tailRegion (png_1x1 ++ extra_IEND))) = JS.of_Z 0.
Proof.
  assert (tailRegion (png_1x1 ++ extra_IEND) = []) as E by reflexivity.
  rewrite E. repeat split. discriminate.
Qed.

(** ** The frequency table *)

Lemma incr_at_length (i : nat) (freq : list Z) :
  List.length (incr_at i freq) = List.length freq.
Proof.
  revert i. induction freq as [|c freq IH]; intros [|i]; cbn; auto.
Qed.

Lemma incr_at_nonneg (i : nat) (freq : list Z) :
  Forall (fun c => 0 <= c) freq -> Forall (fun c => 0 <= c) (incr_at i freq).
Proof.
  revert i. induction freq as [|c freq IH]; intros [|i] H; cbn; auto;
    inversion H; subst; constructor; auto.
  lia.
Qed.

Lemma incr_at_sum (i : nat) (freq : list Z) :
  (i < List.length freq)%nat -> zsum (incr_at i freq) = zsum freq + 1.
Proof.
  revert i. induction freq as [|c freq IH]; intros [|i] H;
    cbn [List.length incr_at] in *; try lia.
  - unfold zsum. cbn [fold_right]. lia.
  - unfold zsum in *. cbn [fold_right]. rewrite IH by lia. lia.
Qed.

Lemma byte_freq_fold (data : list byte) :
  forall f0,
    List.length f0 = 256%nat ->
    Forall (fun c => 0 <= c) f0 ->
    let f := fold_left (fun freq b => incr_at (Byte.to_nat b) freq) data f0 in
    List.length f = 256%nat /\ Forall (fun c => 0 <= c) f /\
    zsum f = zsum f0 + len data.
Proof.
  induction data as [|b data IH]; intros f0 Hlen Hpos; cbn [fold_left].
  - unfold len. cbn. repeat split; auto; lia.
  - pose proof (Byte.to_nat_bounded b) as Hb.
    destruct (IH (incr_at (Byte.to_nat b) f0)) as [H1 [H2 H3]].
    + now rewrite incr_at_length.
    + now apply incr_at_nonneg.
    + cbv zeta. repeat split; auto.
      rewrite H3, incr_at_sum by lia. unfold len. cbn [List.length]. lia.
Qed.

Lemma repeat_zero_nonneg (n : nat) : Forall (fun c => 0 <= c) (repeat 0 n).
Proof. induction n; cbn; constructor; auto; lia. Qed.

Lemma zsum_repeat_zero (n : nat) : zsum (repeat 0 n) = 0.
Proof. induction n; cbn; auto. Qed.

(** The table has 256 entries, none negative, and they add up to the
    number of bytes. *)
Lemma byte_freq_facts (data : list byte) :
  List.length (byte_freq data) = 256%nat /\
  Forall (fun c => 0 <= c) (byte_freq data) /\
  zsum (byte_freq data) = len data.
Proof.
  unfold byte_freq.
  destruct (byte_freq_fold data (repeat 0 256) (repeat_length _ _)
              (repeat_zero_nonneg 256)) as [H1 [H2 H3]].
  rewrite zsum_repeat_zero in H3. repeat split; assumption.
Qed.

Lemma zsum_bounds_entries (l : list Z) :
  Forall (fun c => 0 <= c) l -> Forall (fun c => 0 <= c <= zsum l) l.
Proof.
  induction 1 as [|c l Hc Hl IH]; constructor.
  - assert (0 <= zsum l) as Hs.
    { clear IH. induction Hl as [|d l' Hd Hl' IH']; unfold zsum in *;
        cbn [fold_right]; lia. }
    unfold zsum in *. cbn [fold_right]. lia.
  - eapply Forall_impl; [|exact IH].
    intros d Hd. unfold zsum in *. cbn [fold_right] in *. lia.
Qed.

Lemma incr_add_at (i : nat) (n : Z) (freq : list Z) :
  incr_at i (add_at i n freq) = add_at i (n + 1) freq.
Proof.
  revert i. induction freq as [|c freq IH]; intros [|i]; cbn; auto.
  - f_equal. lia.
  - now rewrite IH.
Qed.

Lemma add_at_zero (i : nat) (freq : list Z) : add_at i 0 freq = freq.
Proof.
  revert i. induction freq as [|c freq IH]; intros [|i]; cbn; auto.
  - f_equal. lia.
  - now rewrite IH.
Qed.

Lemma byte_freq_repeat (v : byte) (n : nat) :
  byte_freq (repeat v n) = add_at (Byte.to_nat v) (Z.of_nat n) (repeat 0 256).
Proof.
  unfold byte_freq.
  assert (forall m f0,
             fold_left (fun freq b => incr_at (Byte.to_nat b) freq)
                       (repeat v n) (add_at (Byte.to_nat v) m f0)
             = add_at (Byte.to_nat v) (m + Z.of_nat n) f0) as H.
  { induction n as [|n IH]; intros m f0.
    - cbn [repeat fold_left]. f_equal. cbn. lia.
    - cbn [repeat fold_left]. rewrite incr_add_at, IH. f_equal. lia. }
  specialize (H 0 (repeat 0 256)). rewrite add_at_zero in H.
  exact H.
Qed.

Lemma add_at_zero_or (i : nat) (n : Z) (freq : list Z) :
  Forall (fun c => c = 0) freq ->
  Forall (fun c => c = 0 \/ c = n) (add_at i n freq).
Proof.
  revert i. induction freq as [|c freq IH]; intros [|i] H; cbn; auto;
    inversion H; subst; constructor; auto.
  eapply Forall_impl; [|eassumption]. cbn. auto.
Qed.

Lemma repeat_zero_all (n : nat) : Forall (fun c => c = 0) (repeat 0 n).
Proof. induction n; cbn; constructor; auto. Qed.

(** ** [shannonEntropy] *)

Section Entropy.

Local Open Scope R_scope.

Lemma entropy_step_term (n : Z) (H : R) (c : Z) :
  entropy_step n H c = H + entropy_term n c.
Proof.
  unfold entropy_step, entropy_term. destruct (c =? 0)%Z; cbv zeta; lra.
Qed.

Lemma entropy_fold (n : Z) (freq : list Z) :
  forall acc, fold_left (entropy_step n) freq acc = acc + entropy_sum n freq.
Proof.
  induction freq as [|c freq IH]; intro acc; cbn [fold_left entropy_sum fold_right].
  - lra.
  - rewrite IH, entropy_step_term. fold (entropy_sum n freq). lra.
Qed.

Lemma shannonEntropy_sum (data : list byte) :
  shannonEntropy data
  = entropy_sum (if (len data =? 0)%Z then 1%Z else len data)
                (byte_freq data).
Proof.
  unfold shannonEntropy. cbv zeta. rewrite entropy_fold. lra.
Qed.

Lemma ln_le_minus_1 (x : R) : 0 < x -> ln x <= x - 1.
Proof.
  intro Hx. pose proof (exp_ineq1_le (ln x)) as H.
  rewrite exp_ln in H by exact Hx. lra.
Qed.

Lemma ln_2_pos : 0 < ln 2.
Proof. pose proof ln_lt_2. lra. Qed.

Lemma ln_256 : ln 256 = 8 * ln 2.
Proof.
  replace 256 with (2 ^ 8) by (simpl; lra).
  rewrite ln_pow by lra. simpl. lra.
Qed.

Lemma IZR_ratio (n c : Z) :
  (0 < n)%Z -> (0 < c <= n)%Z -> 0 < IZR c / IZR n <= 1.
Proof.
  intros Hn [Hc0 Hc1].
  apply IZR_lt in Hn. apply IZR_lt in Hc0. apply IZR_le in Hc1.
  split.
  - now apply Rdiv_lt_0_compat.
  - apply Rmult_le_reg_r with (IZR n); [exact Hn|].
    unfold Rdiv. rewrite Rmult_assoc, Rinv_l by lra. lra.
Qed.

(** One entry adds at least 0 and, in units of [ln 2], at most
    [p ln 256 + 1/256 - p]: this is [ln x <= x - 1] at [x = 1 / (256 p)]. *)
Lemma entropy_term_bounds (n c : Z) :
  (0 < n)%Z -> (0 <= c <= n)%Z ->
  0 <= entropy_term n c /\
  entropy_term n c * ln 2
  <= IZR c / IZR n * ln 256 + / 256 - IZR c / IZR n.
Proof.
  intros Hn Hc. unfold entropy_term. pose proof ln_2_pos as Hl2.
  destruct (Z.eqb_spec c 0) as [->|Hne].
  - unfold Rdiv. rewrite Rmult_0_l. lra.
  - destruct (IZR_ratio n c Hn ltac:(lia)) as [Hp0 Hp1].
    set (p := IZR c / IZR n) in *.
    pose proof (ln_le_minus_1 p Hp0) as Hlnp.
    assert (- (p * log2 p) * ln 2 = - (p * ln p)) as E
        by (unfold log2; field; lra).
    split.
    + assert (0 <= - (p * ln p)) as Hnum.
      { assert (p * ln p <= p * 0) by (apply Rmult_le_compat_l; lra). lra. }
      rewrite <- E in Hnum.
      apply Rmult_le_reg_r with (ln 2); [exact Hl2|]. lra.
    + rewrite E.
      assert (0 < / (256 * p)) as Hx by (apply Rinv_0_lt_compat; lra).
      pose proof (ln_le_minus_1 (/ (256 * p)) Hx) as Hln.
      rewrite ln_Rinv in Hln by lra.
      rewrite ln_mult in Hln by lra.
      assert (p * (- (ln 256 + ln p)) <= p * (/ (256 * p) - 1)) as Hm
          by (apply Rmult_le_compat_l; lra).
      replace (p * (/ (256 * p) - 1)) with (/ 256 - p) in Hm
        by (field; lra).
      lra.
Qed.

Lemma entropy_sum_bounds (n : Z) (freq : list Z) :
  (0 < n)%Z ->
  Forall (fun c => (0 <= c <= n)%Z) freq ->
  0 <= entropy_sum n freq /\
  entropy_sum n freq * ln 2
  <= IZR (zsum freq) / IZR n * ln 256
     + INR (List.length freq) * / 256 - IZR (zsum freq) / IZR n.
Proof.
  intros Hn. induction 1 as [|c freq Hc Hrest IH].
  - cbn. unfold Rdiv. rewrite Rmult_0_l. lra.
  - destruct IH as [IH0 IH1].
    destruct (entropy_term_bounds n c Hn Hc) as [Ht0 Ht1].
    cbn [entropy_sum fold_right]. fold (entropy_sum n freq).
    unfold zsum. cbn [fold_right]. fold (zsum freq).
    cbn [List.length]. rewrite S_INR, plus_IZR.
    split; [lra|].
    replace ((IZR c + IZR (zsum freq)) / IZR n)
      with (IZR c / IZR n + IZR (zsum freq) / IZR n)
      by (unfold Rdiv; ring).
    lra.
Qed.

Lemma entropy_sum_zero (n : Z) (freq : list Z) :
  (0 < n)%Z ->
  Forall (fun c => c = 0%Z \/ c = n) freq ->
  entropy_sum n freq = 0.
Proof.
  intros Hn. induction 1 as [|c freq Hc Hrest IH].
  - reflexivity.
  - cbn [entropy_sum fold_right]. fold (entropy_sum n freq). rewrite IH.
    unfold entropy_term. destruct Hc as [->| ->].
    + cbn. lra.
    + destruct (Z.eqb_spec n 0) as [E|_]; [lia|].
      assert (IZR n / IZR n = 1) as ->
          by (apply IZR_lt in Hn; field; lra).
      unfold log2. rewrite ln_1. unfold Rdiv. lra.
Qed.

Lemma shannonEntropy_empty : shannonEntropy [] = 0.
Proof.
  rewrite shannonEntropy_sum.
  apply entropy_sum_zero; [reflexivity|].
  apply (Forall_impl _ (P := fun c => c = 0%Z)); [tauto|].
  apply repeat_zero_all.
Qed.

Lemma shannonEntropy_bounds (data : list byte) :
  0 <= shannonEntropy data <= 8.
Proof.
  destruct data as [|b data].
  - rewrite shannonEntropy_empty. lra.
  - rewrite shannonEntropy_sum.
    pose proof (len_nonempty (b :: data) ltac:(discriminate)) as Hn.
    destruct (Z.eqb_spec (len (b :: data)) 0) as [E|_]; [lia|].
    destruct (byte_freq_facts (b :: data)) as [Hlen [Hpos Hsum]].
    pose proof (zsum_bounds_entries _ Hpos) as Hent. rewrite Hsum in Hent.
    destruct (entropy_sum_bounds _ _ Hn Hent) as [H0 H1].
    split; [exact H0|].
    rewrite Hsum, Hlen in H1.
    assert (IZR (len (b :: data)) / IZR (len (b :: data)) = 1) as E1
        by (apply IZR_lt in Hn; field; lra).
    rewrite E1 in H1.
    replace (INR 256) with 256 in H1
      by (rewrite INR_IZR_INZ; reflexivity).
    rewrite ln_256 in H1. pose proof ln_2_pos as Hl2.
    apply Rmult_le_reg_r with (ln 2); [exact Hl2|]. lra.
Qed.

Lemma shannonEntropy_repeat (v : byte) (n : nat) :
  shannonEntropy (repeat v n) = 0.
Proof.
  destruct n as [|n]; [apply shannonEntropy_empty|].
  rewrite shannonEntropy_sum, byte_freq_repeat.
  assert (len (repeat v (S n)) = Z.of_nat (S n)) as ->
      by (unfold len; now rewrite repeat_length).
  destruct (Z.eqb_spec (Z.of_nat (S n)) 0) as [E|_]; [lia|].
  apply entropy_sum_zero; [lia|].
  apply add_at_zero_or, repeat_zero_all.
Qed.

End Entropy.

(** C8, as the code has it: the sum [- sum p log2 p] over the frequency
    table, which [shannonEntropy] evaluates, is between 0 and 8 in exact
    arithmetic; it is 0 for the empty sequence, where the divisor is 1 and
    every table entry is 0 (there the binary64 loop returns 0 as well,
    whatever [Math.log2] is), and 0 for a sequence that repeats one byte
    value.  The binary64 result itself is not bounded by 8, as the last
    part of this file shows. *)
Theorem shannonEntropy_exact_range :
  (forall data : list byte,
      (0 <= shannonEntropy data)%R /\ (shannonEntropy data <= 8)%R) /\
  shannonEntropy [] = 0%R /\
  (forall Math_log2 : PrimFloat.float -> PrimFloat.float,
      Binary64.shannonEntropy Math_log2 [] = Binary64.of_int 0) /\
  (forall (v : byte) (n : nat), shannonEntropy (repeat v n) = 0%R).
Proof.
  split; [|split; [|split]].
  - intro data. apply shannonEntropy_bounds.
  - apply shannonEntropy_empty.
  - intro Math_log2. reflexivity.
  - apply shannonEntropy_repeat.
Qed.

(** A one-byte tail: printable, entropy 0, too short for a length bonus or
    a signature. *)
Lemma analyzeTail_score_witness :
  [x41] <> [] /\ score (analyzeTail [x41]) = JS.of_Z 25.
Proof.
  split; [discriminate|].
  destruct (proj2 analyzeTail_score [x41] ltac:(discriminate)) as [E _].
  rewrite E. unfold tail_score_rule.
  change (shannonEntropy [x41]) with (shannonEntropy (repeat x41 1)).
  rewrite (shannonEntropy_repeat x41 1).
  destruct (Rlt_dec 6.5 0) as [H|_]; [lra|]. reflexivity.
Defined.

(** * Further properties of the analyzer *)

(** ** [findSignature]: what a result says about the data *)

Lemma first_sig_some (data : list byte) (i : nat) (nm : string) :
  forall tbl,
    first_sig data i tbl = Some nm ->
    exists s, In s tbl /\ name s = nm /\ occurs_at data i (bytes s).
Proof.
  induction tbl as [|s tbl IH]; cbn [first_sig]; [discriminate|].
  destruct (match_bytes data i (bytes s)) eqn:E.
  - intro H. injection H as <-. exists s. split; [now left|].
    split; [reflexivity|]. now apply match_bytes_spec.
  - intro H. destruct (IH H) as [s' [Hin [Hn Ho]]].
    exists s'. split; [now right|]. now split.
Qed.

Lemma scan_sigs_some (data : list byte) (nm : string) (n : nat) :
  forall i,
    scan_sigs data n i = Some nm ->
    exists k, (i <= k < i + n)%nat /\
              first_sig data k sigs = Some nm /\
              forall k', (i <= k' < k)%nat -> first_sig data k' sigs = None.
Proof.
  induction n as [|n IH]; intros i; cbn [scan_sigs]; [discriminate|].
  destruct (first_sig data i sigs) as [nm'|] eqn:E.
  - intro H. injection H as ->. exists i. split; [lia|].
    split; [exact E|]. intros k' Hk'. lia.
  - intro H. destruct (IH (S i) H) as [k [Hk [Hat Hbefore]]].
    exists k. split; [lia|]. split; [exact Hat|].
    intros k' Hk'. destruct (Nat.eq_dec k' i) as [->|Hne]; [exact E|].
    apply Hbefore. lia.
Qed.

(** X1: a name that [findSignature] reports belongs to a table entry whose
    bytes stand in the data at an offset below [length - 8], and no table
    entry stands at a lower offset. *)
Theorem findSignature_sound (data : list byte) (nm : string) :
  findSignature data = Some nm ->
  exists (i : nat) (s : signature),
    (i + 8 < List.length data)%nat /\
    In s sigs /\ name s = nm /\ occurs_at data i (bytes s) /\
    forall k, (k < i)%nat -> ~ entry_at data k.
Proof.
  unfold findSignature. intro H.
  destruct (scan_sigs_some data nm _ 0%nat H) as [i [Hi [Hat Hbefore]]].
  destruct (first_sig_some data i nm sigs Hat) as [s [Hin [Hn Ho]]].
  exists i, s. split; [lia|]. repeat split; try assumption.
  intros k Hk [s' [Hin' Ho']].
  specialize (Hbefore k ltac:(lia)). rewrite first_sig_none in Hbefore.
  exact (Hbefore s' Hin' Ho').
Qed.

Lemma findSignature_sound_witness :
  findSignature zip_at_10_long = Some "ZIP"%string /\
  exists (i : nat) (s : signature),
    (i + 8 < List.length zip_at_10_long)%nat /\
    In s sigs /\ name s = "ZIP"%string /\
    occurs_at zip_at_10_long i (bytes s) /\
    forall k, (k < i)%nat -> ~ entry_at zip_at_10_long k.
Proof.
  split; [reflexivity|].
  exact (findSignature_sound zip_at_10_long "ZIP" eq_refl).
Defined.

(** X2: [findSignature] answers none exactly when no table entry stands at
    an offset below [length - 8]; in particular on every input of at most 8
    bytes, whatever it holds. *)
Theorem findSignature_none_iff (data : list byte) :
  (findSignature data = None <->
   forall i, (i + 8 < List.length data)%nat -> ~ entry_at data i) /\
  ((List.length data <= 8)%nat -> findSignature data = None).
Proof.
  assert ((forall i, (i + 8 < List.length data)%nat -> ~ entry_at data i) ->
          findSignature data = None) as Hback.
  { intro Hno. unfold findSignature. apply scan_sigs_none.
    intros k Hk. apply first_sig_none. intros s Hin Ho.
    apply (Hno k ltac:(lia)). now exists s. }
  split; [split; [|exact Hback]|].
  - intros Hnone i Hi [s [Hin Ho]].
    destruct (findSignature data) as [nm|] eqn:E; [discriminate|].
    clear Hnone. unfold findSignature in E.
    destruct (first_sig data i sigs) as [nm|] eqn:Ei.
    + assert (exists nm', scan_sigs data (List.length data - 8) 0 = Some nm')
        as [nm' Hs]; [|congruence].
      clear E.
      assert (forall m j, (j <= i < j + m)%nat ->
                          exists nm', scan_sigs data m j = Some nm') as Hex.
      { induction m as [|m IH]; intros j Hj; [lia|]. cbn [scan_sigs].
        destruct (first_sig data j sigs) as [x|] eqn:Ej; [now exists x|].
        apply IH. destruct (Nat.eq_dec i j) as [->|Hne]; [congruence|lia]. }
      apply Hex. lia.
    + rewrite first_sig_none in Ei. exact (Ei s Hin Ho).
  - intro Hshort. apply Hback. intros i Hi. lia.
Qed.

Lemma findSignature_none_iff_witness :
  (List.length (zip_magic ++ repeat x00 4) <= 8)%nat /\
  findSignature (zip_magic ++ repeat x00 4) = None.
Proof.
  assert (List.length (zip_magic ++ repeat x00 4) <= 8)%nat as H
      by (vm_compute; lia).
  split; [exact H|].
  exact (proj2 (findSignature_none_iff (zip_magic ++ repeat x00 4)) H).
Defined.

(** ** [printableFraction] *)

Lemma filter_all (f : byte -> bool) (l : list byte) :
  List.length (filter f l) = List.length l -> forallb f l = true.
Proof.
  induction l as [|b l IH]; [reflexivity|]. cbn [filter forallb].
  destruct (f b); cbn [List.length andb]; intro H.
  - apply IH. lia.
  - pose proof (filter_length_le f l). lia.
Qed.

(** X3: [printableFraction] is a number in [0,1]; it is 0 on the empty
    sequence, and on a non-empty one it is 1 exactly when every byte is in
    [32, 126] and 0 exactly when none is. *)
Theorem printableFraction_facts :
  printableFraction [] = JS.of_Z 0 /\
  forall data : list byte,
  exists q : Q,
    printableFraction data = JS.Fin q /\
    (0 <= q)%Q /\ (q <= 1)%Q /\
    (data <> [] ->
     ((q == 1)%Q <-> forallb is_printable data = true) /\
     ((q == 0)%Q <-> printable_count data = 0)).
Proof.
  split; [reflexivity|]. intro data.
  pose proof (printableFraction_range data) as Hr.
  destruct (printableFraction data) as [q| |] eqn:E; cbn [JS.within] in Hr;
    try tauto.
  exists q. split; [reflexivity|]. split; [tauto|]. split; [tauto|].
  intro Hne. rewrite (printableFraction_nonempty data Hne) in E.
  injection E as <-.
  pose proof (len_nonempty data Hne) as Hl.
  assert (0 <= printable_count data <= len data) as Hc.
  { unfold printable_count, len.
    pose proof (filter_length_le is_printable data). lia. }
  assert (printable_count data = len data <->
          forallb is_printable data = true) as Hall.
  { split.
    - intro H. apply filter_all. unfold printable_count, len in H. lia.
    - intro H. now apply printable_count_all. }
  rewrite <- Hall. destruct (len data) as [|p|p]; try lia.
  unfold Qeq, Qdiv, Qmult, Qinv, inject_Z. cbn [Qnum Qden].
  split; split; intro H; lia.
Qed.

Lemma printableFraction_facts_witness :
  [x41; x0a] <> [] /\
  exists q : Q,
    printableFraction [x41; x0a] = JS.Fin q /\ ~ (q == 1)%Q /\ ~ (q == 0)%Q.
Proof.
  split; [discriminate|].
  destruct (proj2 printableFraction_facts [x41; x0a])
    as [q [E [_ [_ H]]]].
  destruct (H ltac:(discriminate)) as [H1 H0].
  exists q. split; [exact E|]. split.
  - intro Hq. apply H1 in Hq. discriminate.
  - intro Hq. apply H0 in Hq. discriminate.
Defined.

(** ** Where the tail starts *)

Lemma occurs_at_length (view : list byte) (j : nat) (pat : list byte) :
  pat <> [] -> occurs_at view j pat ->
  (j + List.length pat <= List.length view)%nat.
Proof.
  intros Hne H. pose proof (occurs_at_in_range view j pat Hne H) as Hj.
  unfold occurs_at in H. apply (f_equal (@List.length byte)) in H.
  rewrite length_firstn, length_skipn in H. lia.
Qed.

Lemma occurs_at_skipn (view : list byte) (e p : nat) (pat : list byte) :
  occurs_at (skipn e view) p pat <-> occurs_at view (e + p) pat.
Proof.
  unfold occurs_at. rewrite skipn_skipn.
  now replace (p + e)%nat with (e + p)%nat by lia.
Qed.

Lemma occurs_at_split (view : list byte) (i : nat) (pat : list byte) :
  occurs_at view i pat ->
  view = firstn i view ++ pat ++ skipn (i + List.length pat) view.
Proof.
  unfold occurs_at. intro H.
  rewrite <- (firstn_skipn i view) at 1. f_equal.
  rewrite <- (firstn_skipn (List.length pat) (skipn i view)) at 1.
  rewrite H. f_equal. rewrite skipn_skipn.
  now replace (List.length pat + i)%nat with (i + List.length pat)%nat by lia.
Qed.

Lemma eoi_at_occurs (view : list byte) (j : nat) :
  eoi_at view j = true <-> occurs_at view j eoi_marker.
Proof.
  rewrite <- match_bytes_spec. unfold eoi_at, eoi_marker.
  cbn [match_bytes]. replace (j + 1)%nat with (S j) by lia.
  destruct (byte_is view j xff); destruct (byte_is view (S j) xd9);
    cbn [andb]; tauto.
Qed.

Lemma iend_at_occurs (view : list byte) (j : nat) :
  iend_at view j = true <-> occurs_at view (j + 4) iend_tag.
Proof.
  rewrite <- match_bytes_spec. unfold iend_at, iend_tag.
  cbn [match_bytes].
  replace (j + 5)%nat with (S (j + 4)) by lia.
  replace (j + 6)%nat with (S (S (j + 4))) by lia.
  replace (j + 7)%nat with (S (S (S (j + 4)))) by lia.
  destruct (byte_is view (j + 4) x49);
    destruct (byte_is view (S (j + 4)) x45);
    destruct (byte_is view (S (S (j + 4))) x4e);
    destruct (byte_is view (S (S (S (j + 4)))) x44);
    cbn [andb]; tauto.
Qed.

(** The loops stop at the largest offset below [k] that passes the test. *)
Lemma jpg_scan_last (view : list byte) (k : nat) :
  (jpg_scan view k = -1 /\ forall j, (j < k)%nat -> eoi_at view j = false) \/
  (exists i, (i < k)%nat /\ jpg_scan view k = Z.of_nat i + 2 /\
             eoi_at view i = true /\
             forall j, (i < j < k)%nat -> eoi_at view j = false).
Proof.
  induction k as [|k IH]; cbn [jpg_scan].
  - left. split; [reflexivity|]. intros j Hj. lia.
  - destruct (eoi_at view k) eqn:E.
    + right. exists k. repeat split; try lia; try assumption.
    + destruct IH as [[H1 H2]|[i [Hi [H1 [H2 H3]]]]].
      * left. split; [exact H1|]. intros j Hj.
        destruct (Nat.eq_dec j k) as [->|Hne]; [exact E|]. apply H2. lia.
      * right. exists i. repeat split; try lia; try assumption.
        intros j Hj.
        destruct (Nat.eq_dec j k) as [->|Hne]; [exact E|]. apply H3. lia.
Qed.

Lemma png_scan_last (view : list byte) (k : nat) :
  (png_scan view k = -1 /\ forall j, (j < k)%nat -> iend_at view j = false) \/
  (exists i, (i < k)%nat /\ png_scan view k = Z.of_nat i + 12 /\
             iend_at view i = true /\
             forall j, (i < j < k)%nat -> iend_at view j = false).
Proof.
  induction k as [|k IH]; cbn [png_scan].
  - left. split; [reflexivity|]. intros j Hj. lia.
  - destruct (iend_at view k) eqn:E.
    + right. exists k. repeat split; try lia; try assumption.
    + destruct IH as [[H1 H2]|[i [Hi [H1 [H2 H3]]]]].
      * left. split; [exact H1|]. intros j Hj.
        destruct (Nat.eq_dec j k) as [->|Hne]; [exact E|]. apply H2. lia.
      * right. exists i. repeat split; try lia; try assumption.
        intros j Hj.
        destruct (Nat.eq_dec j k) as [->|Hne]; [exact E|]. apply H3. lia.
Qed.

Lemma tailRegion_nonempty (view : list byte) :
  tailRegion view <> [] ->
  0 < eofIndex view < len view /\
  tailRegion view = skipn (Z.to_nat (eofIndex view)) view.
Proof.
  unfold tailRegion, slice.
  destruct (Z.ltb_spec 0 (eofIndex view)) as [H0|H0];
    destruct (Z.ltb_spec (eofIndex view) (len view)) as [H1|H1];
    cbn [andb]; intro Hne; try (now elim Hne).
  split; [lia|reflexivity].
Qed.

Lemma no_pattern_in_nil (p : nat) (pat : list byte) :
  pat <> [] -> ~ occurs_at [] p pat.
Proof.
  intros Hne H. apply (occurs_at_in_range [] p pat Hne) in H.
  cbn in H. lia.
Qed.

Lemma isPNG_not_JPG (view : list byte) : isPNG view = true -> isJPG view = false.
Proof.
  unfold isPNG, isJPG, byte_is. destruct (nth_error view 0) as [b|].
  - destruct b; cbn; try reflexivity; discriminate.
  - reflexivity.
Qed.

(** X4: in a file that starts like a JPEG, a non-empty tail is exactly what
    follows the last marker [FF D9] of the file, and so the tail never holds
    that marker itself. *)
Theorem jpg_tail_after_last_marker (view : list byte) :
  isJPG view = true ->
  (forall p, ~ occurs_at (tailRegion view) p eoi_marker) /\
  (tailRegion view <> [] ->
   exists i : nat,
     eofIndex view = Z.of_nat i + 2 /\
     view = firstn i view ++ eoi_marker ++ tailRegion view).
Proof.
  intro Hj.
  assert (tailRegion view <> [] ->
          exists i : nat,
            eofIndex view = Z.of_nat i + 2 /\
            occurs_at view i eoi_marker /\
            tailRegion view = skipn (i + 2) view /\
            forall j, (i < j < List.length view - 1)%nat ->
                      eoi_at view j = false) as Hlast.
  { intro Hne. destruct (tailRegion_nonempty view Hne) as [He Ht].
    unfold eofIndex in *. rewrite Hj in *.
    destruct (jpg_scan_last view (List.length view - 1))
      as [[H1 _]|[i [Hi [H1 [H2 H3]]]]]; [lia|].
    exists i. split; [exact H1|]. split; [now apply eoi_at_occurs|].
    split; [|exact H3].
    rewrite Ht, H1. f_equal. lia. }
  split.
  - intros p Hp.
    destruct (tailRegion view) as [|b t] eqn:Et.
    + revert Hp. apply no_pattern_in_nil. discriminate.
    + destruct (Hlast ltac:(discriminate)) as [i [_ [_ [Hs Hafter]]]].
      rewrite Hs in Hp. apply occurs_at_skipn in Hp.
      assert (eoi_marker <> []) as Hm by discriminate.
      pose proof (occurs_at_length _ _ _ Hm Hp) as Hlen.
      cbn [List.length eoi_marker] in Hlen.
      apply eoi_at_occurs in Hp.
      rewrite (Hafter (i + 2 + p)%nat) in Hp by lia. discriminate.
  - intro Hne. destruct (Hlast Hne) as [i [He [Ho [Hs _]]]].
    exists i. split; [exact He|]. rewrite Hs.
    exact (occurs_at_split view i eoi_marker Ho).
Qed.

Lemma jpg_tail_after_last_marker_witness :
  isJPG jpg_with_tail = true /\
  forall p, ~ occurs_at (tailRegion jpg_with_tail) p eoi_marker.
Proof.
  split; [reflexivity|].
  exact (proj1 (jpg_tail_after_last_marker jpg_with_tail eq_refl)).
Defined.

(** X5: in a file that starts like a PNG, a non-empty tail is what follows
    the last tag [IEND] the scan can see and the four bytes after it; the
    tail holds no tag [IEND] except possibly within its last seven bytes,
    where the scan does not look. *)
Theorem png_tail_after_last_tag (view : list byte) :
  isPNG view = true ->
  (forall p, (p + 8 <= List.length (tailRegion view))%nat ->
             ~ occurs_at (tailRegion view) p iend_tag) /\
  (tailRegion view <> [] ->
   exists (i : nat) (crc : list byte),
     eofIndex view = Z.of_nat i + 12 /\ List.length crc = 4%nat /\
     view = firstn (i + 4) view ++ iend_tag ++ crc ++ tailRegion view).
Proof.
  intro Hp. pose proof (isPNG_not_JPG view Hp) as Hj.
  assert (tailRegion view <> [] ->
          exists i : nat,
            eofIndex view = Z.of_nat i + 12 /\
            (i + 12 < List.length view)%nat /\
            occurs_at view (i + 4) iend_tag /\
            tailRegion view = skipn (i + 12) view /\
            forall j, (i < j < List.length view - 11)%nat ->
                      iend_at view j = false) as Hlast.
  { intro Hne. destruct (tailRegion_nonempty view Hne) as [He Ht].
    unfold eofIndex in *. rewrite Hj, Hp in *.
    destruct (png_scan_last view (List.length view - 11))
      as [[H1 _]|[i [Hi [H1 [H2 H3]]]]]; [lia|].
    exists i. split; [exact H1|]. unfold len in He.
    split; [lia|]. split; [now apply iend_at_occurs|].
    split; [|exact H3].
    rewrite Ht, H1. f_equal. lia. }
  split.
  - intros p Hlen Hocc.
    destruct (tailRegion view) as [|b t] eqn:Et.
    + revert Hocc. apply no_pattern_in_nil. discriminate.
    + destruct (Hlast ltac:(discriminate)) as [i [_ [Hi [_ [Hs Hafter]]]]].
      rewrite Hs in Hocc, Hlen. rewrite length_skipn in Hlen.
      apply occurs_at_skipn in Hocc.
      replace (i + 12 + p)%nat with ((i + 8 + p) + 4)%nat in Hocc by lia.
      apply iend_at_occurs in Hocc.
      rewrite (Hafter (i + 8 + p)%nat) in Hocc by lia. discriminate.
  - intro Hne. destruct (Hlast Hne) as [i [He [Hi [Ho [Hs _]]]]].
    exists i, (firstn 4 (skipn (i + 8) view)).
    split; [exact He|]. split.
    + rewrite length_firstn, length_skipn. lia.
    + rewrite Hs.
      pose proof (occurs_at_split view (i + 4) iend_tag Ho) as Hv.
      cbn [List.length iend_tag] in Hv.
      replace (i + 4 + 4)%nat with (i + 8)%nat in Hv by lia.
      rewrite <- (firstn_skipn 4 (skipn (i + 8) view)) in Hv.
      rewrite skipn_skipn in Hv.
      replace (4 + (i + 8))%nat with (i + 12)%nat in Hv by lia.
      exact Hv.
Qed.

Lemma png_tail_after_last_tag_witness :
  isPNG (png_1x1 ++ extra_A) = true /\
  forall p, (p + 8 <= List.length (tailRegion (png_1x1 ++ extra_A)))%nat ->
            ~ occurs_at (tailRegion (png_1x1 ++ extra_A)) p iend_tag.
Proof.
  split; [reflexivity|].
  exact (proj1 (png_tail_after_last_tag (png_1x1 ++ extra_A) eq_refl)).
Defined.

(** A tag [IEND] in the last seven bytes of the file is not seen: the tail
    keeps it. *)
Example png_tail_keeps_late_tag :
  tailRegion (png_1x1 ++ [x41; x42] ++ iend_tag ++ [x43])
  = [x41; x42] ++ iend_tag ++ [x43].
Proof. reflexivity. Qed.

Lemma eoi_at_app_r (a r : list byte) (m : nat) :
  eoi_at (a ++ r) (List.length a + m) = eoi_at r m.
Proof.
  unfold eoi_at. rewrite <- !Nat.add_assoc, !byte_is_app_r. reflexivity.
Qed.

Lemma eofIndex_jpeg (body extra : list byte) :
  (forall p, ~ occurs_at extra p eoi_marker) ->
  eofIndex (jpeg_file body ++ extra) = len (jpeg_file body).
Proof.
  intro Hno. unfold eofIndex.
  assert (isJPG (jpeg_file body ++ extra) = true) as -> by reflexivity.
  unfold jpeg_file.
  set (a := [xff; xd8; xff] ++ body).
  replace (([xff; xd8; xff] ++ body ++ eoi_marker) ++ extra)
    with (a ++ eoi_marker ++ extra)
    by (unfold a; now rewrite <- !app_assoc).
  replace ([xff; xd8; xff] ++ body ++ eoi_marker) with (a ++ eoi_marker)
    by (unfold a; now rewrite <- app_assoc).
  rewrite (jpg_scan_found _ (List.length a)).
  - unfold len. rewrite length_app. cbn [List.length eoi_marker]. lia.
  - pose proof (eoi_at_app_r a (eoi_marker ++ extra) 0) as H0.
    rewrite Nat.add_0_r in H0. rewrite H0. reflexivity.
  - rewrite !length_app. cbn [List.length eoi_marker]. lia.
  - intros j Hj. rewrite !length_app in Hj.
    cbn [List.length eoi_marker] in Hj.
    replace j with (List.length a + (j - List.length a))%nat by lia.
    rewrite eoi_at_app_r.
    destruct (j - List.length a)%nat as [|[|m]] eqn:Em; [lia|reflexivity|].
    pose proof (eoi_at_app_r eoi_marker extra m) as Hm.
    cbn [List.length eoi_marker Nat.add] in Hm. rewrite Hm.
    destruct (eoi_at extra m) eqn:E; [|reflexivity].
    apply eoi_at_occurs in E. elim (Hno m E).
Qed.

(** X6: a file that starts [FF D8 FF] and ends with [FF D9] has an empty
    tail whatever lies between, so bytes hidden before a final marker are
    not seen by the tail analysis; bytes appended after it that do not hold
    [FF D9] are the tail. *)
Theorem jpeg_tail (body extra : list byte) :
  tailRegion (jpeg_file body) = [] /\
  ((forall p, ~ occurs_at extra p eoi_marker) ->
   tailRegion (jpeg_file body ++ extra) = extra).
Proof.
  assert (forall ex, (forall p, ~ occurs_at ex p eoi_marker) ->
                     tailRegion (jpeg_file body ++ ex) = ex) as H.
  { intros ex Hno. unfold tailRegion. rewrite (eofIndex_jpeg body ex Hno).
    assert (0 < len (jpeg_file body)) as Hpos
        by (unfold len, jpeg_file; rewrite length_app;
            cbn [List.length]; lia).
    rewrite (proj2 (Z.ltb_lt _ _) Hpos). cbn [andb].
    destruct (Z.ltb_spec (len (jpeg_file body))
                         (len (jpeg_file body ++ ex))) as [Hlt|Hge].
    - unfold slice, len. rewrite Nat2Z.id.
      rewrite skipn_app, skipn_all, Nat.sub_diag. reflexivity.
    - unfold len in Hge. rewrite length_app in Hge.
      destruct ex; [reflexivity|cbn [List.length] in Hge; lia]. }
  split; [|apply H].
  rewrite <- (app_nil_r (jpeg_file body)) at 1. apply H.
  intro p. apply no_pattern_in_nil. discriminate.
Qed.

Lemma jpeg_tail_witness :
  (forall p, ~ occurs_at (repeat x41 10) p eoi_marker) /\
  tailRegion (jpeg_file [xe0; x00; x10] ++ repeat x41 10) = repeat x41 10.
Proof.
  assert (forall p, ~ occurs_at (repeat x41 10) p eoi_marker) as Hno.
  { intro p. apply match_bytes_false. unfold eoi_marker. cbn [match_bytes].
    assert (byte_is (repeat x41 10) p xff = false) as ->; [|reflexivity].
    unfold byte_is. destruct (nth_error (repeat x41 10) p) as [b|] eqn:E;
      [|reflexivity].
    apply nth_error_In, repeat_spec in E. now subst b. }
  split; [exact Hno|].
  exact (proj2 (jpeg_tail [xe0; x00; x10] (repeat x41 10)) Hno).
Defined.

(** ** How the two sub-scores decide the level *)

Lemma of_Z_inj (a b : Z) : JS.of_Z a = JS.of_Z b -> a = b.
Proof. unfold JS.of_Z, inject_Z. intro H. now injection H. Qed.

(** Linear arithmetic with quotients by a constant. *)
Ltac div_lia := Z.to_euclidean_division_equations; lia.

Lemma analyzeTail_score_values (t : list byte) :
  exists n : Z,
    score (analyzeTail t) = JS.of_Z n /\
    In n [0; 25; 30; 50; 55; 75; 80; 100] /\
    (t = [] -> n = 0).
Proof.
  destruct t as [|b t].
  - exists 0. split; [reflexivity|]. split; [now left|reflexivity].
  - exists (tail_score_rule (b :: t)).
    split; [apply analyzeTail_score_rule; discriminate|].
    split; [|discriminate].
    unfold tail_score_rule, bonus.
    destruct (100 <? len (b :: t));
      destruct (3 * len (b :: t) <? 10 * printable_count (b :: t));
      destruct (Rlt_dec 6.5 (shannonEntropy (b :: t)));
      destruct (findSignature (b :: t)); cbn; tauto.
Qed.

Lemma analyzeLSB_score_int (data : list byte) :
  data <> [] ->
  exists n : Z, score (analyzeLSB data) = JS.of_Z n /\ 0 <= n <= 100.
Proof.
  intro Hne. unfold analyzeLSB.
  pose proof (lsb_counts_nonneg data) as [Hz Ho].
  pose proof (lsb_counts_nonempty data Hne) as Ht.
  destruct (lsb_counts data) as [z o]. cbn [fst snd] in *.
  destruct (lsb_balance_nonempty z o Hz Ho ltac:(lia)) as [b [Eb [Hb0 Hb1]]].
  cbn [score]. rewrite Eb.
  cbn [JS.sub JS.of_Z JS.mul JS.Math_round].
  fold (JS.of_Z 100). rewrite min_100_of_Z.
  pose proof (round_between ((inject_Z 1 - b) * inject_Z 100) 0 100) as H.
  change (inject_Z 1) with 1%Q in *. change (inject_Z 100) with 100%Q in *.
  change (inject_Z 0) with 0%Q in *.
  specialize (H ltac:(lra) ltac:(lra)).
  eexists. split; [reflexivity|]. lia.
Qed.

(** On integer sub-scores the aggregate is an integer division. *)
Lemma combined_score_int (t l : Z) :
  0 <= t <= 100 -> 0 <= l <= 100 ->
  combined_score (JS.of_Z t) (JS.of_Z l)
  = JS.of_Z ((6 * t + 4 * l + 5) / 10).
Proof.
  intros Ht Hl.
  assert (Qfloor (inject_Z t * (6 # 10) + inject_Z l * (4 # 10) + (1 # 2))
          = (6 * t + 4 * l + 5) / 10) as E.
  { unfold Qfloor, Qplus, Qmult, inject_Z. cbn [Qnum Qden].
    replace (Z.pos (1 * 10 * (1 * 10) * 2)) with (20 * 10) by reflexivity.
    replace ((t * 6 * Z.pos (1 * 10) + l * 4 * Z.pos (1 * 10)) * 2
             + 1 * Z.pos (1 * 10 * (1 * 10)))
      with (20 * (6 * t + 4 * l + 5)) by lia.
    apply Z.div_mul_cancel_l; lia. }
  unfold combined_score.
  change (JS.of_Z t) with (JS.Fin (inject_Z t)).
  change (JS.of_Z l) with (JS.Fin (inject_Z l)).
  cbn [JS.mul JS.add JS.Math_round]. rewrite E, min_100_of_Z.
  rewrite Z.min_r; [reflexivity|].
  assert ((6 * t + 4 * l + 5) / 10 < 101)
    by (apply Z.div_lt_upper_bound; lia).
  lia.
Qed.

Lemma aggregate_alert_iff (ti li : SubScore) (n : Z) :
  result_score (aggregate ti li) = JS.of_Z n ->
  (level (aggregate ti li) = "alert"%string <-> 60 <= n) /\
  (level (aggregate ti li) = "warn"%string <-> 30 <= n < 60) /\
  (level (aggregate ti li) = "safe"%string <-> n < 30).
Proof.
  intro E. destruct (aggregate_level ti li n E) as [Ha [Hw Hs]].
  destruct (Z_lt_le_dec n 30) as [H30|H30].
  - rewrite (Hs H30). repeat split; intros; try discriminate; div_lia.
  - destruct (Z_lt_le_dec n 60) as [H60|H60].
    + rewrite (Hw ltac:(div_lia)).
      repeat split; intros; try discriminate; div_lia.
    + rewrite (Ha H60). repeat split; intros; try discriminate; div_lia.
Qed.

Lemma analyzeImage_scores (view img : list byte) :
  img <> [] ->
  exists t l : Z,
    score (analyzeTail (tailRegion view)) = JS.of_Z t /\
    In t [0; 25; 30; 50; 55; 75; 80; 100] /\
    (tailRegion view = [] -> t = 0) /\
    score (analyzeLSB img) = JS.of_Z l /\ 0 <= l <= 100 /\
    result_score (analyzeImage view img)
    = JS.of_Z ((6 * t + 4 * l + 5) / 10).
Proof.
  intro Hne.
  destruct (analyzeTail_score_values (tailRegion view)) as [t [Et [Ht Ht0]]].
  destruct (analyzeLSB_score_int img Hne) as [l [El Hl]].
  exists t, l. repeat split; try assumption; try div_lia.
  unfold analyzeImage, aggregate. cbn [result_score]. rewrite Et, El.
  apply combined_score_int; [|exact Hl].
  cbn [In] in Ht. div_lia.
Qed.

Lemma empty_grid_level (ti : SubScore) (li : SubScore) :
  score li = JS.NaN ->
  level (aggregate ti li) = "safe"%string /\
  message (aggregate ti li) = "✅ Image appears safe."%string.
Proof.
  intro E. unfold aggregate, combined_score. rewrite E.
  destruct (score ti) as [t|s|]; cbn; try (destruct s); split; reflexivity.
Qed.

(** X7: the level [alert] is reached only with a tail: the tail region is
    then not empty and its sub-score is at least 50, so at least two of the
    four tail conditions hold. *)
Theorem alert_needs_tail (view img : list byte) :
  level (analyzeImage view img) = "alert"%string ->
  tailRegion view <> [] /\
  exists t : Z,
    score (analyzeTail (tailRegion view)) = JS.of_Z t /\ 50 <= t <= 100.
Proof.
  intro Ha. destruct img as [|b img].
  - destruct (empty_grid_level (analyzeTail (tailRegion view))
                (analyzeLSB []) eq_refl) as [Hs _].
    unfold analyzeImage in Ha. rewrite Hs in Ha. discriminate.
  - destruct (analyzeImage_scores view (b :: img) ltac:(discriminate))
      as [t [l [Et [Ht [Ht0 [El [Hl Er]]]]]]].
    unfold analyzeImage in *.
    apply (aggregate_alert_iff _ _ _ Er) in Ha.
    assert (50 <= t <= 100) as Hrange by (cbn [In] in Ht; div_lia).
    split.
    + intro Hnil. specialize (Ht0 Hnil). div_lia.
    + exists t. split; assumption.
Qed.

Lemma alert_needs_tail_witness :
  level (analyzeImage (png_1x1 ++ tail_zip_200) grid_a) = "alert"%string /\
  tailRegion (png_1x1 ++ tail_zip_200) <> [].
Proof.
  assert (level (analyzeImage (png_1x1 ++ tail_zip_200) grid_a)
          = "alert"%string) as Ha.
  { assert (tailRegion (png_1x1 ++ tail_zip_200) = tail_zip_200) as Et
        by reflexivity.
    destruct (analyzeImage_scores (png_1x1 ++ tail_zip_200) grid_a
                ltac:(discriminate))
      as [t [l [Es [_ [_ [El [_ Er]]]]]]].
    rewrite Et in Es.
    rewrite (analyzeTail_score_rule tail_zip_200 ltac:(discriminate)) in Es.
    assert (80 <= tail_score_rule tail_zip_200) as H80.
    { unfold tail_score_rule.
      assert (findSignature tail_zip_200 = Some "ZIP"%string) as ->
          by reflexivity.
      assert (len tail_zip_200 = 200) as -> by reflexivity.
      assert (printable_count tail_zip_200 = 198) as -> by reflexivity.
      unfold bonus.
      destruct (Rlt_dec 6.5 (shannonEntropy tail_zip_200)); cbn; div_lia. }
    assert (l = 100) as -> by (vm_compute in El; now injection El).
    apply of_Z_inj in Es. subst t.
    pose proof (tail_score_rule_range tail_zip_200) as Hr.
    apply (aggregate_alert_iff _ _ _ Er).
    div_lia. }
  split; [exact Ha|].
  exact (proj1 (alert_needs_tail _ _ Ha)).
Defined.

(** X8: without a tail (no marker found, marker at the very end, unknown
    format) the LSB sub-score [l] alone decides: the aggregate is
    [round(0.4 l)], at most 40; the level is [warn] exactly from [l = 74] on
    and never [alert]. *)
Theorem no_tail_caps_score (view img : list byte) :
  tailRegion view = [] -> img <> [] ->
  exists l n : Z,
    score (analyzeLSB img) = JS.of_Z l /\
    result_score (analyzeImage view img) = JS.of_Z n /\
    n = (4 * l + 5) / 10 /\ 0 <= n <= 40 /\
    (level (analyzeImage view img) = "warn"%string <-> 74 <= l) /\
    level (analyzeImage view img) <> "alert"%string.
Proof.
  intros Hnil Hne.
  destruct (analyzeImage_scores view img Hne)
    as [t [l [Et [Ht [Ht0 [El [Hl Er]]]]]]].
  specialize (Ht0 Hnil). subst t.
  exists l, ((4 * l + 5) / 10).
  replace (6 * 0 + 4 * l + 5) with (4 * l + 5) in Er by div_lia.
  unfold analyzeImage in *.
  destruct (aggregate_alert_iff _ _ _ Er) as [Ha [Hw _]].
  assert (0 <= (4 * l + 5) / 10 <= 40) as Hn.
  { div_lia. }
  repeat split; try assumption; try div_lia.
  - intro H. apply Hw in H. div_lia.
  - intro H. apply Hw. div_lia.
  - intro H. apply Ha in H. div_lia.
Qed.

Lemma no_tail_caps_score_witness :
  tailRegion png_1x1 = [] /\ grid_a <> [] /\
  result_score (analyzeImage png_1x1 grid_a) = JS.of_Z 40 /\
  level (analyzeImage png_1x1 grid_a) = "warn"%string.
Proof.
  assert (grid_a <> []) as Hne by discriminate.
  destruct (no_tail_caps_score png_1x1 grid_a eq_refl Hne)
    as [l [n [El [En [Hn [_ [Hw _]]]]]]].
  assert (l = 100) as -> by (vm_compute in El; now injection El).
  split; [reflexivity|]. split; [exact Hne|]. split.
  - rewrite En, Hn. reflexivity.
  - apply Hw. div_lia.
Defined.

(** X10: the aggregate never falls when a sub-score rises (integer
    sub-scores in [0,100]). *)
Theorem combined_score_monotone (t l t' l' : Z) :
  0 <= t <= t' -> t' <= 100 -> 0 <= l <= l' -> l' <= 100 ->
  exists n n' : Z,
    combined_score (JS.of_Z t) (JS.of_Z l) = JS.of_Z n /\
    combined_score (JS.of_Z t') (JS.of_Z l') = JS.of_Z n' /\
    0 <= n <= n' /\ n' <= 100.
Proof.
  intros Ht Ht' Hl Hl'.
  exists ((6 * t + 4 * l + 5) / 10), ((6 * t' + 4 * l' + 5) / 10).
  split; [apply combined_score_int; div_lia|].
  split; [apply combined_score_int; div_lia|].
  div_lia.
Qed.

Lemma combined_score_monotone_witness :
  exists n n' : Z,
    combined_score (JS.of_Z 25) (JS.of_Z 50) = JS.of_Z n /\
    combined_score (JS.of_Z 55) (JS.of_Z 50) = JS.of_Z n' /\
    0 <= n <= n' /\ n' <= 100.
Proof.
  apply (combined_score_monotone 25 50 55 50); div_lia.
Defined.

(** X11: a tail sub-score of 100 gives level [alert] whatever the pixels
    are, as long as the grid is not empty. *)
Theorem full_tail_score_alerts (view img : list byte) :
  score (analyzeTail (tailRegion view)) = JS.of_Z 100 ->
  img <> [] ->
  level (analyzeImage view img) = "alert"%string.
Proof.
  intros E100 Hne.
  destruct (analyzeImage_scores view img Hne)
    as [t [l [Et [_ [_ [_ [Hl Er]]]]]]].
  rewrite E100 in Et. apply of_Z_inj in Et. subst t.
  unfold analyzeImage in *.
  apply (aggregate_alert_iff _ _ _ Er). div_lia.
Qed.

(** ** The frequency table counts occurrences *)

Lemma incr_at_nth (i j : nat) (freq : list Z) :
  nth j (incr_at i freq) 0
  = nth j freq 0
    + (if (j =? i)%nat && (j <? List.length freq)%nat then 1 else 0).
Proof.
  revert i j. induction freq as [|c freq IH]; intros i j.
  - destruct i; destruct j; cbn [incr_at nth List.length];
      rewrite ?andb_false_r; lia.
  - destruct i as [|i]; destruct j as [|j]; cbn [incr_at nth List.length].
    + cbn. lia.
    + cbn. lia.
    + cbn. lia.
    + rewrite IH. cbn [Nat.eqb].
      replace (S j <? S (List.length freq))%nat
        with (j <? List.length freq)%nat by reflexivity.
      reflexivity.
Qed.

Lemma byte_of_index_to_nat (b : byte) : byte_of_index (Byte.to_nat b) = b.
Proof. unfold byte_of_index. now rewrite Byte.of_to_nat. Qed.

Lemma to_nat_byte_of_index (j : nat) :
  (j < 256)%nat -> Byte.to_nat (byte_of_index j) = j.
Proof.
  intro Hj. unfold byte_of_index.
  destruct (Byte.of_nat j) as [b|] eqn:E.
  - now apply Byte.to_of_nat.
  - apply Byte.of_nat_None_iff in E. lia.
Qed.

Lemma byte_eqb_refl (b : byte) : Byte.eqb b b = true.
Proof. now apply Byte.byte_dec_lb. Qed.

Lemma occurrences_cons (v b : byte) (data : list byte) :
  occurrences v (b :: data)
  = (if Byte.eqb b v then 1 else 0) + occurrences v data.
Proof.
  unfold occurrences. cbn [count_occ].
  destruct (Byte.byte_eq_dec b v) as [->|Hne].
  - rewrite byte_eqb_refl. lia.
  - destruct (Byte.eqb b v) eqn:E; [|lia].
    apply Byte.byte_dec_bl in E. contradiction.
Qed.

Lemma byte_freq_fold_nth (data : list byte) :
  forall (f : list Z) (j : nat),
    List.length f = 256%nat -> (j < 256)%nat ->
    nth j (fold_left (fun freq b => incr_at (Byte.to_nat b) freq) data f) 0
    = nth j f 0 + occurrences (byte_of_index j) data.
Proof.
  induction data as [|b data IH]; intros f j Hlen Hj; cbn [fold_left].
  - unfold occurrences. cbn. lia.
  - rewrite IH by (rewrite ?incr_at_length; assumption).
    rewrite incr_at_nth, occurrences_cons, Hlen.
    replace (j <? 256)%nat with true by (symmetry; now apply Nat.ltb_lt).
    rewrite andb_true_r.
    destruct (Nat.eqb_spec j (Byte.to_nat b)) as [->|Hne].
    + rewrite byte_of_index_to_nat, byte_eqb_refl. lia.
    + destruct (Byte.eqb b (byte_of_index j)) eqn:E; [|lia].
      apply Byte.byte_dec_bl in E. subst b.
      rewrite to_nat_byte_of_index in Hne by exact Hj. contradiction.
Qed.

Lemma nth_map_seq (f : nat -> Z) (n j : nat) :
  (j < n)%nat -> nth j (map f (seq 0 n)) 0 = f j.
Proof.
  intro Hj.
  rewrite (nth_indep _ 0 (f 0%nat)) by (now rewrite length_map, length_seq).
  rewrite map_nth, seq_nth by exact Hj. reflexivity.
Qed.

Lemma byte_freq_occurrences (data : list byte) :
  byte_freq data = map (fun v => occurrences v data) all_bytes.
Proof.
  destruct (byte_freq_facts data) as [Hlen _].
  apply (nth_ext _ _ 0 0).
  - rewrite Hlen. unfold all_bytes. now rewrite !length_map, length_seq.
  - intros j Hj. rewrite Hlen in Hj. unfold byte_freq.
    rewrite byte_freq_fold_nth by (rewrite ?repeat_length; auto).
    rewrite nth_repeat.
    unfold all_bytes. rewrite map_map.
    rewrite (nth_map_seq (fun n => occurrences (byte_of_index n) data))
      by exact Hj.
    reflexivity.
Qed.

(** X12: the table [freq] built by the first loop holds, for each byte
    value in increasing order, the number of its occurrences, so the result
    is the Shannon sum over the occurrence counts with divisor [length]
    (1 for the empty input). *)
Theorem shannonEntropy_formula (data : list byte) :
  byte_freq data = map (fun v => occurrences v data) all_bytes /\
  shannonEntropy data
  = entropy_sum (if len data =? 0 then 1 else len data)
                (map (fun v => occurrences v data) all_bytes).
Proof.
  split; [apply byte_freq_occurrences|].
  rewrite shannonEntropy_sum. now rewrite byte_freq_occurrences.
Qed.

(** X13: the entropy and the printable fraction depend only on how often
    each byte value occurs, not on the order of the bytes. *)
Theorem statistics_ignore_order (d1 d2 : list byte) :
  Permutation d1 d2 ->
  shannonEntropy d1 = shannonEntropy d2 /\
  printableFraction d1 = printableFraction d2.
Proof.
  intro Hp.
  assert (len d1 = len d2) as Hlen
      by (unfold len; now rewrite (Permutation_length Hp)).
  split.
  - rewrite !shannonEntropy_sum, !byte_freq_occurrences, Hlen.
    f_equal. apply map_ext. intro v. unfold occurrences.
    now rewrite (proj1 (Permutation_count_occ Byte.byte_eq_dec d1 d2) Hp v).
  - unfold printableFraction. rewrite !count_printable_spec, Hlen.
    assert (printable_count d1 = printable_count d2) as ->; [|reflexivity].
    unfold printable_count. f_equal. clear Hlen.
    induction Hp as [|b l l' _ IH|a b l|l l' l'' _ IH1 _ IH2];
      cbn [filter].
    + reflexivity.
    + destruct (is_printable b); cbn [List.length]; now rewrite IH.
    + destruct (is_printable a); destruct (is_printable b); reflexivity.
    + now rewrite IH1.
Qed.

Lemma statistics_ignore_order_witness :
  Permutation [x41; x00; x42] [x00; x42; x41] /\
  shannonEntropy [x41; x00; x42] = shannonEntropy [x00; x42; x41].
Proof.
  assert (Permutation [x41; x00; x42] [x00; x42; x41]) as Hp.
  { apply (perm_trans (l' := [x00; x41; x42])).
    - apply perm_swap.
    - apply perm_skip. apply perm_swap. }
  split; [exact Hp|].
  exact (proj1 (statistics_ignore_order _ _ Hp)).
Defined.

(** ** Sharper bounds on the entropy *)

Section EntropyBounds.

Local Open Scope R_scope.

(** The bound of one table entry against any reference size [L]; the total
    over the table is [ln L] when [L] is the number of bytes. *)
Lemma entropy_term_bound_any (n c : Z) (L : R) :
  (0 < n)%Z -> (0 <= c <= n)%Z -> 0 < L ->
  entropy_term n c * ln 2
  <= IZR c / IZR n * ln L + IZR c / L - IZR c / IZR n.
Proof.
  intros Hn Hc HL. unfold entropy_term. pose proof ln_2_pos as Hl2.
  destruct (Z.eqb_spec c 0) as [->|Hne].
  - unfold Rdiv. rewrite !Rmult_0_l. lra.
  - destruct (IZR_ratio n c Hn ltac:(lia)) as [Hp0 Hp1].
    assert (1 <= IZR c) as Hc1 by (apply IZR_le; lia).
    set (p := IZR c / IZR n) in *.
    assert (- (p * log2 p) * ln 2 = - (p * ln p)) as E
        by (unfold log2; field; lra).
    rewrite E.
    assert (0 < / (L * p)) as Hx
        by (apply Rinv_0_lt_compat, Rmult_lt_0_compat; lra).
    pose proof (ln_le_minus_1 (/ (L * p)) Hx) as Hln.
    rewrite ln_Rinv in Hln by (apply Rmult_lt_0_compat; lra).
    rewrite ln_mult in Hln by lra.
    assert (p * (- (ln L + ln p)) <= p * (/ (L * p) - 1)) as Hm
        by (apply Rmult_le_compat_l; lra).
    replace (p * (/ (L * p) - 1)) with (/ L - p) in Hm by (field; lra).
    assert (/ L <= IZR c / L) as HcL.
    { unfold Rdiv. rewrite <- (Rmult_1_l (/ L)) at 1.
      apply Rmult_le_compat_r; [|exact Hc1].
      apply Rlt_le, Rinv_0_lt_compat, HL. }
    lra.
Qed.

Lemma entropy_sum_bound_any (n : Z) (L : R) (freq : list Z) :
  (0 < n)%Z -> 0 < L ->
  Forall (fun c => (0 <= c <= n)%Z) freq ->
  entropy_sum n freq * ln 2
  <= IZR (zsum freq) / IZR n * ln L + IZR (zsum freq) / L
     - IZR (zsum freq) / IZR n.
Proof.
  intros Hn HL. induction 1 as [|c freq Hc Hrest IH].
  - cbn. unfold Rdiv. rewrite !Rmult_0_l. lra.
  - pose proof (entropy_term_bound_any n c L Hn Hc HL) as Ht.
    cbn [entropy_sum fold_right]. fold (entropy_sum n freq).
    unfold zsum. cbn [fold_right]. fold (zsum freq).
    rewrite plus_IZR.
    replace ((IZR c + IZR (zsum freq)) / IZR n)
      with (IZR c / IZR n + IZR (zsum freq) / IZR n)
      by (unfold Rdiv; ring).
    replace ((IZR c + IZR (zsum freq)) / L)
      with (IZR c / L + IZR (zsum freq) / L)
      by (unfold Rdiv; ring).
    lra.
Qed.

Lemma shannonEntropy_le_log2_len (data : list byte) :
  data <> [] -> shannonEntropy data <= log2 (IZR (len data)).
Proof.
  intro Hne. pose proof (len_nonempty data Hne) as Hn.
  rewrite shannonEntropy_sum.
  destruct (Z.eqb_spec (len data) 0) as [E|_]; [lia|].
  destruct (byte_freq_facts data) as [_ [Hpos Hsum]].
  pose proof (zsum_bounds_entries _ Hpos) as Hent. rewrite Hsum in Hent.
  assert (0 < IZR (len data)) as HL by (now apply IZR_lt).
  pose proof (entropy_sum_bound_any _ (IZR (len data)) _ Hn HL Hent) as H.
  rewrite Hsum in H.
  assert (IZR (len data) / IZR (len data) = 1) as E1 by (field; lra).
  rewrite E1 in H. pose proof ln_2_pos as Hl2. unfold log2.
  apply Rmult_le_reg_r with (ln 2); [exact Hl2|].
  unfold Rdiv. rewrite Rmult_assoc, Rinv_l by lra. lra.
Qed.

(** [log2 90 < 6.5], since [90^2 = 8100 < 8192 = 2^13]. *)
Lemma log2_90 : log2 90 < 6.5.
Proof.
  pose proof ln_2_pos as Hl2. unfold log2.
  assert (ln 8100 < ln 8192) as H by (apply ln_increasing; lra).
  replace 8100 with (90 * 90) in H by lra.
  rewrite ln_mult in H by lra.
  replace 8192 with (2 ^ 13) in H by (simpl; lra).
  rewrite ln_pow in H by lra.
  replace (INR 13) with 13 in H by (simpl; lra).
  apply Rmult_lt_reg_r with (ln 2); [exact Hl2|].
  unfold Rdiv. rewrite Rmult_assoc, Rinv_l by lra. lra.
Qed.

Lemma short_data_entropy (data : list byte) :
  (len data <= 90)%Z -> ~ 6.5 < shannonEntropy data.
Proof.
  intros Hlen Hgt. destruct data as [|b data].
  - rewrite shannonEntropy_empty in Hgt. lra.
  - pose proof (shannonEntropy_le_log2_len (b :: data) ltac:(discriminate))
      as H.
    pose proof (len_nonempty (b :: data) ltac:(discriminate)) as Hn.
    pose proof log2_90 as H90. pose proof ln_2_pos as Hl2.
    assert (log2 (IZR (len (b :: data))) <= log2 90) as Hmono.
    { unfold log2. apply Rmult_le_compat_r.
      - apply Rlt_le, Rinv_0_lt_compat, Hl2.
      - apply IZR_lt in Hn. apply IZR_le in Hlen.
        destruct (Rle_lt_or_eq_dec _ _ Hlen) as [Hlt|Heq].
        + apply Rlt_le, ln_increasing; assumption.
        + rewrite Heq. lra. }
    lra.
Qed.

Lemma entropy_sum_repeat (n c : Z) (k : nat) :
  entropy_sum n (repeat c k) = INR k * entropy_term n c.
Proof.
  induction k as [|k IH].
  - cbn. lra.
  - cbn [repeat entropy_sum fold_right]. fold (entropy_sum n (repeat c k)).
    rewrite IH, S_INR. lra.
Qed.

(** A flat table: every value [m] times. *)
Lemma entropy_of_flat_table (data : list byte) (m : Z) :
  (0 < m)%Z -> byte_freq data = repeat m 256 -> shannonEntropy data = 8.
Proof.
  intros Hm Hf.
  destruct (byte_freq_facts data) as [_ [_ Hsum]].
  rewrite Hf in Hsum.
  assert (zsum (repeat m 256) = (256 * m)%Z) as Hz.
  { assert (forall k, zsum (repeat m k) = (Z.of_nat k * m)%Z) as Hk.
    { induction k as [|k IH]; [reflexivity|].
      unfold zsum in *. cbn [repeat fold_right]. rewrite IH. lia. }
    now rewrite Hk. }
  rewrite Hz in Hsum.
  rewrite shannonEntropy_sum, Hf, <- Hsum.
  destruct (Z.eqb_spec (256 * m) 0) as [E|_]; [lia|].
  rewrite entropy_sum_repeat. unfold entropy_term.
  destruct (Z.eqb_spec m 0) as [E|_]; [lia|].
  apply IZR_lt in Hm.
  assert (IZR m / IZR (256 * m) = / 256) as ->
      by (rewrite mult_IZR; field; lra).
  unfold log2. rewrite ln_Rinv by lra. rewrite ln_256.
  pose proof ln_2_pos as Hl2.
  replace (INR 256) with 256 by (rewrite INR_IZR_INZ; reflexivity).
  field. lra.
Qed.

End EntropyBounds.

(** A bound with a margin: [log2 90 < 831/128 = 6.4921875], since
    [90^128 < 2^831]. *)
Section ShortData.

Local Open Scope R_scope.

Lemma log2_90_tight : log2 90 < 831 / 128.
Proof.
  pose proof ln_2_pos as Hl2. unfold log2.
  assert (90 ^ 128 < 2 ^ 831) as Hpow.
  { rewrite !pow_IZR. apply IZR_lt. vm_compute. reflexivity. }
  assert (0 < 90 ^ 128) as Hpos by (apply pow_lt; lra).
  pose proof (ln_increasing _ _ Hpos Hpow) as H.
  rewrite !ln_pow in H by lra.
  replace (INR 128) with 128 in H by (rewrite INR_IZR_INZ; reflexivity).
  replace (INR 831) with 831 in H by (rewrite INR_IZR_INZ; reflexivity).
  apply Rmult_lt_reg_r with (ln 2); [exact Hl2|].
  unfold Rdiv. rewrite Rmult_assoc, Rinv_l by lra. lra.
Qed.

Lemma short_data_entropy_bound (data : list byte) :
  (len data <= 90)%Z -> shannonEntropy data <= 831 / 128.
Proof.
  intros Hlen. destruct data as [|b data].
  - rewrite shannonEntropy_empty. lra.
  - pose proof (shannonEntropy_le_log2_len (b :: data) ltac:(discriminate))
      as H.
    pose proof (len_nonempty (b :: data) ltac:(discriminate)) as Hn.
    pose proof log2_90_tight as H90. pose proof ln_2_pos as Hl2.
    assert (log2 (IZR (len (b :: data))) <= log2 90) as Hmono.
    { unfold log2. apply Rmult_le_compat_r.
      - apply Rlt_le, Rinv_0_lt_compat, Hl2.
      - apply IZR_lt in Hn. apply IZR_le in Hlen.
        destruct (Rle_lt_or_eq_dec _ _ Hlen) as [Hlt|Heq].
        + apply Rlt_le, ln_increasing; assumption.
        + rewrite Heq. lra. }
    lra.
Qed.

End ShortData.

(** X14: a sequence of at most 90 bytes has an entropy of at most 831/128
    = 6.4921875 (its exact bound [log2 90] is 6.49185...), so it stays
    clear of the threshold and never passes the test [entropy > 6.5]. *)
Theorem short_data_entropy_margin (data : list byte) :
  len data <= 90 ->
  (0 <= shannonEntropy data <= 831 / 128)%R /\
  ~ (6.5 < shannonEntropy data)%R.
Proof.
  intro Hlen.
  pose proof (short_data_entropy_bound data Hlen) as H.
  pose proof (shannonEntropy_bounds data) as [H0 _].
  split; [split; assumption|]. lra.
Qed.

Lemma short_data_entropy_margin_witness :
  len [x41; x42] <= 90 /\ ~ (6.5 < shannonEntropy [x41; x42])%R.
Proof.
  assert (len [x41; x42] <= 90) as Hlen by (vm_compute; discriminate).
  split; [exact Hlen|].
  exact (proj2 (short_data_entropy_margin [x41; x42] Hlen)).
Defined.

(** X15: a tail of at most 90 bytes scores at most 55 (it is too short for
    the length and entropy conditions), and a tail of at most 8 bytes scores
    0 or 25 (the signature scan does not reach it either). *)
Theorem short_tail_score (t : list byte) :
  len t <= 90 ->
  exists n : Z,
    score (analyzeTail t) = JS.of_Z n /\
    In n [0; 25; 30; 55] /\
    (len t <= 8 -> n = 0 \/ n = 25).
Proof.
  intro Hlen. destruct t as [|b t].
  - exists 0. split; [reflexivity|]. split; [now left|]. now left.
  - exists (tail_score_rule (b :: t)).
    split; [apply analyzeTail_score_rule; discriminate|].
    pose proof (short_data_entropy (b :: t) Hlen) as Hent.
    unfold tail_score_rule, bonus.
    destruct (Z.ltb_spec 100 (len (b :: t))) as [H100|_]; [lia|].
    destruct (Rlt_dec 6.5 (shannonEntropy (b :: t))) as [Hgt|_];
      [contradiction|].
    split.
    + destruct (3 * len (b :: t) <? 10 * printable_count (b :: t));
        destruct (findSignature (b :: t)); cbn; tauto.
    + intro H8.
      assert (findSignature (b :: t) = None) as ->.
      { unfold findSignature.
        replace (List.length (b :: t) - 8)%nat with O
          by (unfold len in H8; lia).
        reflexivity. }
      destruct (3 * len (b :: t) <? 10 * printable_count (b :: t));
        cbn; tauto.
Qed.

Lemma short_tail_score_witness :
  len zip_magic <= 90 /\ score (analyzeTail zip_magic) = JS.of_Z 25.
Proof.
  assert (len zip_magic <= 90) as Hlen by (vm_compute; discriminate).
  split; [exact Hlen|].
  destruct (short_tail_score zip_magic Hlen) as [n [E [_ H8]]].
  rewrite E. f_equal.
  destruct (H8 ltac:(vm_compute; discriminate)) as [->| ->];
    [|reflexivity].
  exfalso.
  rewrite (analyzeTail_score_rule zip_magic ltac:(discriminate)) in E.
  apply of_Z_inj in E. unfold tail_score_rule in E.
  assert ((3 * len zip_magic <? 10 * printable_count zip_magic) = true) as Hp
      by reflexivity.
  rewrite Hp in E. unfold bonus in E.
  destruct (Rlt_dec 6.5 (shannonEntropy zip_magic));
    destruct (findSignature zip_magic); cbn in E; lia.
Defined.

(** X16: when every byte value occurs equally often, the entropy is
    exactly 8: the upper bound is reached. *)
Theorem shannonEntropy_uniform (data : list byte) (m : Z) :
  0 < m ->
  (forall v : byte, occurrences v data = m) ->
  shannonEntropy data = 8%R.
Proof.
  intros Hm Hall. apply (entropy_of_flat_table data m Hm).
  rewrite byte_freq_occurrences.
  rewrite (map_ext _ (fun _ => m)) by exact Hall.
  reflexivity.
Qed.

Lemma shannonEntropy_uniform_witness :
  (forall v : byte, occurrences v all_bytes = 1) /\
  shannonEntropy all_bytes = 8%R.
Proof.
  assert (forall v : byte, occurrences v all_bytes = 1) as Hall
      by (intro v; destruct v; vm_compute; reflexivity).
  split; [exact Hall|].
  exact (shannonEntropy_uniform all_bytes 1 ltac:(lia) Hall).
Defined.

Lemma tail_every_byte_score :
  score (analyzeTail tail_every_byte) = JS.of_Z 100.
Proof.
  rewrite (analyzeTail_score_rule tail_every_byte ltac:(discriminate)).
  unfold tail_score_rule.
  assert (shannonEntropy tail_every_byte = 8%R) as ->
      by (apply (entropy_of_flat_table _ 1); [lia|vm_compute; reflexivity]).
  assert (findSignature tail_every_byte = Some "ZIP"%string) as ->
      by (vm_compute; reflexivity).
  assert (len tail_every_byte = 256) as -> by (vm_compute; reflexivity).
  assert (printable_count tail_every_byte = 95) as ->
      by (vm_compute; reflexivity).
  destruct (Rlt_dec 6.5 8) as [_|H]; [reflexivity|].
  exfalso. apply H. lra.
Qed.

Lemma full_tail_score_alerts_witness :
  score (analyzeTail (tailRegion (png_1x1 ++ tail_every_byte)))
  = JS.of_Z 100 /\
  level (analyzeImage (png_1x1 ++ tail_every_byte) (repeat x00 8))
  = "alert"%string.
Proof.
  assert (tailRegion (png_1x1 ++ tail_every_byte) = tail_every_byte) as Et
      by (vm_compute; reflexivity).
  assert (score (analyzeTail (tailRegion (png_1x1 ++ tail_every_byte)))
          = JS.of_Z 100) as E by (rewrite Et; apply tail_every_byte_score).
  split; [exact E|].
  apply (full_tail_score_alerts _ _ E). discriminate.
Defined.

(** ** What the pixel loop counts *)

Lemma filter_none (f : nat -> bool) (l : list nat) :
  (forall k, In k l -> f k = false) -> filter f l = [].
Proof.
  induction l as [|a l IH]; intro H; [reflexivity|]. cbn [filter].
  rewrite (H a (or_introl eq_refl)). apply IH.
  intros k Hk. apply H. now right.
Qed.

Lemma odd_sample_out_of_range (data : list byte) (k : nat) :
  (List.length data <= k)%nat -> odd_sample data k = false.
Proof.
  intro H. unfold odd_sample. rewrite lsb_of_out_of_range by exact H.
  cbn. apply andb_false_r.
Qed.

Lemma lsb_pixel_ones (data : list byte) (i : nat) (c : Z * Z) :
  (i mod 4 = 0)%nat ->
  snd (lsb_pixel data i c)
  = snd c + Z.of_nat (List.length (filter (odd_sample data) (seq i 4))).
Proof.
  intro Hi.
  assert (forall j, (j < 3)%nat ->
                    odd_sample data (i + j) = negb (lsb_of data (i + j) =? 0)%N)
    as Hcol.
  { intros j Hj. unfold odd_sample.
    assert ((i + j) mod 4 = j)%nat as ->.
    { rewrite Nat.Div0.add_mod by lia. rewrite Hi.
      do 3 (destruct j as [|j]; [reflexivity|]). lia. }
    do 3 (destruct j as [|j]; [reflexivity|]). lia. }
  assert (odd_sample data (i + 3) = false) as Halpha.
  { unfold odd_sample.
    assert ((i + 3) mod 4 = 3)%nat as ->
        by (rewrite Nat.Div0.add_mod by lia; now rewrite Hi).
    reflexivity. }
  cbn [seq filter].
  replace (S i) with (i + 1)%nat by lia.
  replace (S (i + 1)) with (i + 2)%nat by lia.
  replace (S (i + 2)) with (i + 3)%nat by lia.
  rewrite <- (Nat.add_0_r i) at 2.
  rewrite (Hcol 0%nat), (Hcol 1%nat), (Hcol 2%nat), Halpha by lia.
  unfold lsb_pixel. cbn [fold_left]. unfold lsb_step.
  destruct (lsb_of data (i + 0) =? 0)%N;
    destruct (lsb_of data (i + 1) =? 0)%N;
    destruct (lsb_of data (i + 2) =? 0)%N; cbn; lia.
Qed.

Lemma lsb_loop_ones (data : list byte) (fuel : nat) :
  forall i c,
    (i mod 4 = 0)%nat ->
    snd (lsb_loop data fuel i c)
    = snd c
      + Z.of_nat (List.length (filter (odd_sample data) (seq i (4 * fuel)))).
Proof.
  induction fuel as [|fuel IH]; intros i c Hi.
  - cbn. lia.
  - cbn [lsb_loop].
    replace (4 * S fuel)%nat with (4 + 4 * fuel)%nat by lia.
    rewrite seq_app, filter_app, length_app.
    destruct (Nat.ltb_spec i (List.length data)) as [Hlt|Hge].
    + rewrite IH by (rewrite Nat.Div0.add_mod by lia; now rewrite Hi).
      rewrite (lsb_pixel_ones data i c Hi). lia.
    + rewrite !filter_none; [cbn; lia| |];
        intros k Hk; apply in_seq in Hk;
        apply odd_sample_out_of_range; lia.
Qed.

Lemma lsb_loop_total (data : list byte) (fuel : nat) :
  forall i c,
    (List.length data <= i + 4 * fuel)%nat ->
    fst (lsb_loop data fuel i c) + snd (lsb_loop data fuel i c)
    = fst c + snd c
      + 3 * ((Z.max 0 (len data - Z.of_nat i) + 3) / 4).
Proof.
  unfold len. induction fuel as [|fuel IH]; intros i c Hfuel.
  - cbn [lsb_loop]. Z.to_euclidean_division_equations. lia.
  - cbn [lsb_loop].
    destruct (Nat.ltb_spec i (List.length data)) as [Hlt|Hge].
    + rewrite IH by lia.
      pose proof (lsb_pixel_total data i c) as Hp. cbv zeta in Hp.
      Z.to_euclidean_division_equations. lia.
    + Z.to_euclidean_division_equations. lia.
Qed.

(** X17: what [analyzeLSB] counts: [lsb1] is the number of colour samples
    (positions not of the form [4k + 3]) whose low bit is 1, and
    [lsb0 + lsb1] is three times the number of pixels, a last pixel cut
    short counting as a whole one. *)
Theorem lsb_counts_spec (data : list byte) :
  snd (lsb_counts data) = odd_samples data /\
  fst (lsb_counts data) + snd (lsb_counts data)
  = 3 * ((len data + 3) / 4).
Proof.
  unfold lsb_counts. split.
  - rewrite lsb_loop_ones by reflexivity. unfold odd_samples.
    cbn [snd]. f_equal.
    replace (4 * List.length data)%nat
      with (List.length data + 3 * List.length data)%nat by lia.
    rewrite seq_app, filter_app, length_app.
    rewrite (filter_none _ (seq (0 + List.length data) _)); [cbn; lia|].
    intros k Hk. apply in_seq in Hk. apply odd_sample_out_of_range. lia.
  - rewrite lsb_loop_total by lia. cbn [fst snd]. unfold len.
    Z.to_euclidean_division_equations. lia.
Qed.

(** ** The LSB sub-score as a function of the counts *)

Lemma Qfloor_ratio (x : Z) (p : positive) :
  Qfloor (inject_Z x / inject_Z (Z.pos p)) = x / Z.pos p.
Proof.
  unfold Qfloor, Qdiv, Qmult, Qinv, inject_Z. cbn [Qnum Qden].
  now rewrite Z.mul_1_r, Pos.mul_1_l.
Qed.

(** The sub-score of the exact model as a function of the counts.  The
    code rounds a binary64 value, which can fall just under a half where
    the exact value is the half itself ([lsb_value_231_9] below), so away
    from the two ends this formula is the model's, not always the
    code's. *)
Lemma lsb_score_formula (z o : Z) :
  0 <= z -> 0 <= o -> 0 < z + o ->
  JS.Math_min (JS.of_Z 100)
    (JS.Math_round
       (JS.mul (JS.sub (JS.of_Z 1) (lsb_balance z o)) (JS.of_Z 100)))
  = JS.of_Z ((400 * Z.min z o + (z + o)) / (2 * (z + o))).
Proof.
  intros Hz Ho Ht.
  assert (lsb_balance z o
          = JS.Fin (inject_Z (Z.abs (z - o)) / inject_Z (z + o))) as Eb.
  { unfold lsb_balance, JS.Math_abs, JS.of_Z, JS.div.
    assert (JS.Qzero_bool (inject_Z (z + o)) = false) as ->; [|reflexivity].
    unfold JS.Qzero_bool.
    destruct (Qeq_bool (inject_Z (z + o)) 0) eqn:E; [|reflexivity].
    apply Qeq_bool_iff in E. unfold Qeq, inject_Z in E. cbn in E. lia. }
  rewrite Eb. cbn [JS.sub JS.of_Z JS.mul JS.Math_round].
  fold (JS.of_Z 100).
  assert (Z.abs (z - o) = z + o - 2 * Z.min z o) as -> by lia.
  set (m := Z.min z o). set (t := z + o) in *.
  assert ((inject_Z 1 - inject_Z (t - 2 * m) / inject_Z t) * inject_Z 100
          + (1 # 2)
          == inject_Z (400 * m + t) / inject_Z (2 * t))%Q as Eq.
  { assert (~ inject_Z t == 0)%Q as Hne.
    { intro H. unfold Qeq, inject_Z in H. cbn in H. lia. }
    unfold Z.sub. rewrite !inject_Z_plus, inject_Z_opp, !inject_Z_mult.
    change (inject_Z 2) with 2%Q. change (inject_Z 400) with 400%Q.
    change (inject_Z 1) with 1%Q. change (inject_Z 100) with 100%Q.
    field. exact Hne. }
  rewrite (Qfloor_comp _ _ Eq).
  destruct (2 * t) as [|p|p] eqn:E2; try lia.
  rewrite Qfloor_ratio, min_100_of_Z. f_equal.
  assert (m <= t) by (unfold m, t; lia).
  assert (0 <= m) by (unfold m; lia).
  Z.to_euclidean_division_equations. nia.
Qed.

(** X18: the two ends of the LSB sub-score, for a grid with at least one
    sample: it is 100 when the two counts are equal and 0 when all low bits
    agree (one of the counts is 0). *)
Theorem analyzeLSB_score_extremes (data : list byte) :
  data <> [] ->
  let z := fst (lsb_counts data) in
  let o := snd (lsb_counts data) in
  (z = o -> score (analyzeLSB data) = JS.of_Z 100) /\
  (z = 0 \/ o = 0 -> score (analyzeLSB data) = JS.of_Z 0).
Proof.
  intros Hne z o.
  pose proof (lsb_counts_nonneg data) as [Hz Ho].
  pose proof (lsb_counts_nonempty data Hne) as Ht.
  assert (score (analyzeLSB data)
          = JS.of_Z ((400 * Z.min z o + (z + o)) / (2 * (z + o)))) as E.
  { unfold analyzeLSB. subst z o.
    destruct (lsb_counts data) as [z o]. cbn [fst snd score] in *.
    apply lsb_score_formula; lia. }
  fold z o in Hz, Ho, Ht. clearbody z o.
  rewrite E. split.
  - intros ->. f_equal. rewrite Z.min_id.
    Z.to_euclidean_division_equations. nia.
  - intros [-> | ->]; f_equal; rewrite ?Z.min_l, ?Z.min_r by lia;
      Z.to_euclidean_division_equations; nia.
Qed.

Lemma analyzeLSB_score_extremes_witness :
  grid_a <> [] /\ score (analyzeLSB grid_a) = JS.of_Z 100.
Proof.
  assert (grid_a <> []) as Hne by discriminate.
  split; [exact Hne|].
  exact (proj1 (analyzeLSB_score_extremes grid_a Hne) eq_refl).
Defined.

(** ** Complementing the low bits *)

Lemma lsb_step_swap (d d' : list byte) (c : Z * Z) (k : nat) :
  (lsb_of d' k =? 0)%N = negb (lsb_of d k =? 0)%N ->
  lsb_step d' (swap_counts c) k = swap_counts (lsb_step d c k).
Proof.
  intro H. unfold lsb_step, swap_counts. rewrite H.
  destruct (lsb_of d k =? 0)%N; reflexivity.
Qed.

Lemma lsb_loop_swap (d d' : list byte) :
  List.length d' = List.length d ->
  (List.length d mod 4 = 0)%nat ->
  (forall k, (k < List.length d)%nat -> (k mod 4 <> 3)%nat ->
             (lsb_of d' k =? 0)%N = negb (lsb_of d k =? 0)%N) ->
  forall fuel i c,
    (i mod 4 = 0)%nat ->
    lsb_loop d' fuel i (swap_counts c) = swap_counts (lsb_loop d fuel i c).
Proof.
  intros Hlen Hmod Hflip. induction fuel as [|fuel IH]; intros i c Hi.
  - reflexivity.
  - cbn [lsb_loop]. rewrite Hlen.
    destruct (Nat.ltb_spec i (List.length d)) as [Hlt|Hge]; [|reflexivity].
    assert (i + 4 <= List.length d)%nat as Hroom.
    { pose proof (Nat.Div0.div_mod i 4).
      pose proof (Nat.Div0.div_mod (List.length d) 4). lia. }
    assert (forall j, (j < 3)%nat ->
                      (lsb_of d' (i + j) =? 0)%N
                      = negb (lsb_of d (i + j) =? 0)%N) as Hj.
    { intros j Hj. apply Hflip; [lia|].
      rewrite Nat.Div0.add_mod by lia. rewrite Hi.
      do 3 (destruct j as [|j]; [cbn; lia|]). lia. }
    assert (lsb_pixel d' i (swap_counts c) = swap_counts (lsb_pixel d i c))
      as ->.
    { unfold lsb_pixel. cbn [fold_left].
      rewrite !(lsb_step_swap d d') by (apply Hj; lia). reflexivity. }
    apply IH. rewrite Nat.Div0.add_mod by lia. now rewrite Hi.
Qed.

(** X19: complementing the low bit of every colour sample of a grid of
    whole pixels swaps the two counts and leaves the sub-score unchanged:
    the score does not tell a grid from its complement. *)
Theorem analyzeLSB_complement (d d' : list byte) :
  List.length d' = List.length d ->
  (List.length d mod 4 = 0)%nat ->
  (forall k, (k < List.length d)%nat -> (k mod 4 <> 3)%nat ->
             (lsb_of d' k =? 0)%N = negb (lsb_of d k =? 0)%N) ->
  lsb_counts d' = swap_counts (lsb_counts d) /\
  score (analyzeLSB d') = score (analyzeLSB d).
Proof.
  intros Hlen Hmod Hflip.
  assert (lsb_counts d' = swap_counts (lsb_counts d)) as Hc.
  { unfold lsb_counts. rewrite Hlen.
    exact (lsb_loop_swap d d' Hlen Hmod Hflip (List.length d) 0%nat (0, 0)
             eq_refl). }
  split; [exact Hc|].
  unfold analyzeLSB. rewrite Hc.
  destruct (lsb_counts d) as [z o]. unfold swap_counts. cbn [fst snd score].
  assert (lsb_balance o z = lsb_balance z o) as ->; [|reflexivity].
  unfold lsb_balance, JS.Math_abs, JS.of_Z.
  change (Qabs (inject_Z (o - z))) with (inject_Z (Z.abs (o - z))).
  change (Qabs (inject_Z (z - o))) with (inject_Z (Z.abs (z - o))).
  replace (Z.abs (o - z)) with (Z.abs (z - o)) by lia.
  now rewrite (Z.add_comm o z).
Qed.

Lemma analyzeLSB_complement_witness :
  List.length pixel_101 = List.length pixel_010 /\
  lsb_counts pixel_101 = swap_counts (lsb_counts pixel_010) /\
  score (analyzeLSB pixel_101) = score (analyzeLSB pixel_010).
Proof.
  split; [reflexivity|].
  apply (analyzeLSB_complement pixel_010 pixel_101).
  - reflexivity.
  - reflexivity.
  - intros k Hk Hmod.
    do 4 (destruct k as [|k]; [try reflexivity; now elim Hmod|]).
    simpl in Hk. lia.
Defined.

(** ** The size of the grid handed to [analyzeLSB] *)

Section Canvas.

Local Open Scope R_scope.

Lemma to_unsigned_long_bounds (x : R) :
  0 <= x ->
  (0 <= to_unsigned_long x)%Z /\ IZR (to_unsigned_long x) <= x.
Proof.
  intro Hx. unfold to_unsigned_long.
  destruct (base_Int_part x) as [Hle Hgt].
  assert (0 <= Int_part x)%Z as Hpos.
  { assert (IZR (-1) < IZR (Int_part x)) as H1 by lra.
    apply lt_IZR in H1. lia. }
  assert (0 <= Int_part x mod 2 ^ 32 <= Int_part x)%Z as Hmod.
  { split; [apply Z.mod_pos_bound; reflexivity|].
    apply Z.mod_le; [exact Hpos|reflexivity]. }
  split; [lia|].
  apply Rle_trans with (IZR (Int_part x)); [apply IZR_le; lia|exact Hle].
Qed.

Lemma canvas_scale_range (w h : Z) :
  (0 < w)%Z -> (0 < h)%Z ->
  0 < canvas_scale w h <= 1 /\
  IZR (w * h) * (canvas_scale w h * canvas_scale w h) <= IZR maxPixels.
Proof.
  intros Hw Hh. unfold canvas_scale, maxPixels.
  assert (0 < w * h)%Z as Hwh by lia.
  destruct (Z.ltb_spec 1000000 (w * h)) as [Hbig|Hsmall].
  - apply IZR_lt in Hbig. apply IZR_lt in Hwh.
    set (a := IZR (w * h)) in *.
    assert (0 < 1000000 / a < 1) as [Hq0 Hq1].
    { split.
      - apply Rdiv_lt_0_compat; lra.
      - apply Rmult_lt_reg_r with a; [lra|].
        unfold Rdiv. rewrite Rmult_assoc, Rinv_l by lra. lra. }
    split; [split|].
    + apply sqrt_lt_R0, Hq0.
    + rewrite <- sqrt_1. apply Rlt_le, sqrt_lt_1; lra.
    + rewrite sqrt_sqrt by lra. unfold Rdiv.
      replace (a * (1000000 * / a)) with (1000000 * (a * / a)) by ring.
      rewrite Rinv_r by lra. lra.
  - apply IZR_le in Hsmall. lra.
Qed.

Lemma canvas_size_facts (w h : Z) :
  (0 < w)%Z -> (0 < h)%Z ->
  (0 <= fst (canvas_size w h) <= w)%Z /\
  (0 <= snd (canvas_size w h) <= h)%Z /\
  (fst (canvas_size w h) * snd (canvas_size w h) <= maxPixels)%Z /\
  ((w * h <= maxPixels)%Z -> canvas_size w h = (w, h)).
Proof.
  intros Hw Hh.
  destruct (canvas_scale_range w h Hw Hh) as [[Hs0 Hs1] Hprod].
  unfold canvas_size. cbv zeta. cbn [fst snd].
  set (s := canvas_scale w h) in *.
  pose proof (IZR_lt _ _ Hw) as Hwr. pose proof (IZR_lt _ _ Hh) as Hhr.
  assert (0 <= IZR w * s) as Hws by (apply Rmult_le_pos; lra).
  assert (0 <= IZR h * s) as Hhs by (apply Rmult_le_pos; lra).
  destruct (to_unsigned_long_bounds _ Hws) as [Hw0 Hw1].
  destruct (to_unsigned_long_bounds _ Hhs) as [Hh0 Hh1].
  assert (IZR w * s <= IZR w) as Hwle.
  { rewrite <- (Rmult_1_r (IZR w)) at 2. apply Rmult_le_compat_l; lra. }
  assert (IZR h * s <= IZR h) as Hhle.
  { rewrite <- (Rmult_1_r (IZR h)) at 2. apply Rmult_le_compat_l; lra. }
  split; [split; [exact Hw0|apply le_IZR; lra]|].
  split; [split; [exact Hh0|apply le_IZR; lra]|].
  split.
  - apply le_IZR. rewrite mult_IZR.
    apply Rle_trans with ((IZR w * s) * (IZR h * s)).
    + apply Rmult_le_compat; try assumption; apply IZR_le; assumption.
    + rewrite mult_IZR in Hprod.
      replace (IZR w * s * (IZR h * s)) with (IZR w * IZR h * (s * s))
        by ring.
      exact Hprod.
  - intro Hsmall. unfold s, canvas_scale.
    destruct (Z.ltb_spec maxPixels (w * h)) as [Hbig|_]; [lia|].
    rewrite !Rmult_1_r. unfold to_unsigned_long.
    assert (forall z : Z, Int_part (IZR z) = z) as Hint.
    { intro z. symmetry. apply Int_part_spec. lra. }
    rewrite !Hint. unfold maxPixels in Hsmall.
    rewrite !Z.mod_small; [reflexivity| |];
      (split; [lia|]); change (2 ^ 32)%Z with 4294967296%Z; nia.
Qed.

End Canvas.

(** X20: for an image of positive width and height the canvas that
    [getImageData] sets up is never larger than the image in either
    direction and holds at most 1,000,000 pixels; an image of at most
    1,000,000 pixels keeps its size.  A grid of that canvas size, four
    samples a pixel, makes [analyzeLSB] count at most 3,000,000 samples. *)
Theorem canvas_size_bounded (w h : Z) :
  0 < w -> 0 < h ->
  let w' := fst (canvas_size w h) in
  let h' := snd (canvas_size w h) in
  0 <= w' <= w /\ 0 <= h' <= h /\ w' * h' <= 1000000 /\
  (w * h <= 1000000 -> w' = w /\ h' = h) /\
  (forall data : list byte,
      len data = 4 * (w' * h') ->
      fst (lsb_counts data) + snd (lsb_counts data) = 3 * (w' * h') /\
      fst (lsb_counts data) + snd (lsb_counts data) <= 3000000).
Proof.
  intros Hw Hh w' h'.
  destruct (canvas_size_facts w h Hw Hh) as [Hw' [Hh' [Hprod Hsame]]].
  fold w' h' in Hw', Hh', Hprod. unfold maxPixels in *.
  split; [exact Hw'|]. split; [exact Hh'|]. split; [exact Hprod|].
  split.
  - intro Hsmall. specialize (Hsame Hsmall). unfold w', h'.
    rewrite Hsame. split; reflexivity.
  - intros data Hlen.
    assert (fst (lsb_counts data) + snd (lsb_counts data) = 3 * (w' * h'))
      as E.
    { unfold lsb_counts. rewrite lsb_loop_total by lia. cbn [fst snd].
      rewrite Hlen. Z.to_euclidean_division_equations. lia. }
    split; [exact E|lia].
Qed.

Lemma canvas_size_bounded_witness :
  0 < 3000 /\ 0 < 2000 /\
  fst (canvas_size 3000 2000) * snd (canvas_size 3000 2000) <= 1000000.
Proof.
  split; [lia|]. split; [lia|].
  exact (proj1 (proj2 (proj2 (canvas_size_bounded 3000 2000
                                ltac:(lia) ltac:(lia))))).
Defined.

Section CanvasEdge.

Local Open Scope R_scope.

Lemma canvas_width_zero (w h : Z) :
  (0 < w)%Z -> (maxPixels * w < h)%Z -> fst (canvas_size w h) = 0%Z.
Proof.
  intros Hw Hh. unfold maxPixels in Hh.
  assert (0 < h)%Z as Hh0 by lia.
  destruct (canvas_scale_range w h Hw Hh0) as [[Hs0 Hs1] _].
  assert (canvas_scale w h * canvas_scale w h
          = IZR maxPixels / IZR (w * h)) as Hsq.
  { unfold canvas_scale, maxPixels.
    destruct (Z.ltb_spec 1000000 (w * h)) as [_|Hsmall]; [|nia].
    apply sqrt_sqrt. apply Rlt_le, Rdiv_lt_0_compat; [lra|].
    apply IZR_lt. lia. }
  unfold canvas_size. cbv zeta. cbn [fst].
  set (s := canvas_scale w h) in *.
  pose proof (IZR_lt _ _ Hw) as Hwr. pose proof (IZR_lt _ _ Hh0) as Hhr.
  assert (0 <= IZR w * s) as Hpos by (apply Rmult_le_pos; lra).
  assert (IZR w * s < 1) as Hlt.
  { destruct (Rlt_le_dec (IZR w * s) 1) as [H|H]; [exact H|exfalso].
    assert (1 * 1 <= (IZR w * s) * (IZR w * s)) as Hsqge
        by (apply Rmult_le_compat; lra).
    replace ((IZR w * s) * (IZR w * s)) with (IZR w * IZR w * (s * s))
      in Hsqge by ring.
    rewrite Hsq, mult_IZR in Hsqge. unfold maxPixels in Hsqge.
    assert (IZR w * IZR w * (1000000 / (IZR w * IZR h))
            = 1000000 * IZR w / IZR h) as E by (field; lra).
    rewrite E in Hsqge.
    assert (1000000 * IZR w < IZR h) as Hr.
    { rewrite <- mult_IZR. now apply IZR_lt. }
    assert (1000000 * IZR w / IZR h < 1).
    { apply Rmult_lt_reg_r with (IZR h); [exact Hhr|].
      unfold Rdiv. rewrite Rmult_assoc, Rinv_l by lra. lra. }
    lra. }
  unfold to_unsigned_long.
  assert (Int_part (IZR w * s) = 0%Z) as ->
      by (symmetry; apply Int_part_spec; lra).
  reflexivity.
Qed.

End CanvasEdge.

(** X21: an image more than a million times as high as it is wide gets a
    canvas of width 0: the pixel cap rounds the scaled width down to
    nothing. *)
Theorem canvas_can_vanish (w h : Z) :
  0 < w -> 1000000 * w < h -> fst (canvas_size w h) = 0.
Proof.
  intros Hw Hh. now apply canvas_width_zero.
Qed.

Lemma canvas_can_vanish_witness :
  0 < 1 /\ 1000000 * 1 < 2000000 /\ fst (canvas_size 1 2000000) = 0.
Proof.
  split; [lia|]. split; [lia|].
  exact (canvas_can_vanish 1 2000000 ltac:(lia) ltac:(lia)).
Defined.

(** ** The three scores of one analysis *)

(** X22: with at least one sample in the grid the three scores are
    integers: the tail sub-score [t] is one of 0, 25, 30, 50, 55, 75, 80,
    100, the LSB sub-score [l] is in [0,100], and the aggregate is the
    integer quotient [(6 t + 4 l + 5) / 10], in [0,100]. *)
Theorem analyzeImage_integer_scores (view img : list byte) :
  img <> [] ->
  exists t l n : Z,
    score (analyzeTail (tailRegion view)) = JS.of_Z t /\
    In t [0; 25; 30; 50; 55; 75; 80; 100] /\
    score (analyzeLSB img) = JS.of_Z l /\ 0 <= l <= 100 /\
    result_score (analyzeImage view img) = JS.of_Z n /\
    n = (6 * t + 4 * l + 5) / 10 /\ 0 <= n <= 100.
Proof.
  intro Hne.
  destruct (analyzeImage_scores view img Hne)
    as [t [l [Et [Ht [_ [El [Hl Er]]]]]]].
  exists t, l, ((6 * t + 4 * l + 5) / 10).
  repeat split; try assumption; try lia.
  - cbn [In] in Ht. div_lia.
  - cbn [In] in Ht. div_lia.
Qed.

Lemma analyzeImage_integer_scores_witness :
  grid_a <> [] /\
  result_score (analyzeImage (png_1x1 ++ extra_A) grid_a) = JS.of_Z 70.
Proof.
  assert (grid_a <> []) as Hne by discriminate.
  split; [exact Hne|].
  destruct (analyzeImage_integer_scores (png_1x1 ++ extra_A) grid_a Hne)
    as [t [l [n [Et [_ [El [_ [En [Hn _]]]]]]]]].
  assert (l = 100) as -> by (vm_compute in El; now injection El).
  assert (tailRegion (png_1x1 ++ extra_A) = extra_A) as Etail
      by (vm_compute; reflexivity).
  rewrite Etail in Et.
  rewrite (analyzeTail_score_rule extra_A ltac:(discriminate)) in Et.
  apply of_Z_inj in Et.
  assert (tail_score_rule extra_A = 50) as E50.
  { unfold tail_score_rule.
    change (shannonEntropy extra_A)
      with (shannonEntropy (repeat x41 200)).
    rewrite (shannonEntropy_repeat x41 200).
    assert (findSignature extra_A = None) as -> by (vm_compute; reflexivity).
    assert (len extra_A = 200) as -> by (vm_compute; reflexivity).
    assert (printable_count extra_A = 200) as ->
        by (vm_compute; reflexivity).
    destruct (Rlt_dec 6.5 0) as [H|_]; [lra|]. reflexivity. }
  rewrite En, Hn, <- Et, E50. reflexivity.
Defined.

(** X23: line 74 in binary64.  For integer sub-scores [t] and [l] in
    [0,100] the weighted sum [t * 0.6 + l * 0.4], computed in binary64 with
    the doubles nearest to 0.6 and 0.4, rounds under [Math.round] to
    [(6 t + 4 l + 5) / 10], the aggregate score of the exact model: the
    rounding error of this sum never reaches the score. *)
Theorem weighted_sum_binary64 (t l : Z) :
  0 <= t <= 100 -> 0 <= l <= 100 ->
  combined_score (JS.of_Z t) (JS.of_Z l)
  = JS.of_Z ((6 * t + 4 * l + 5) / 10) /\
  Binary64.rounds_to (Binary64.weighted t l) ((6 * t + 4 * l + 5) / 10)
  = true.
Proof.
  intros Ht Hl.
  destruct (combined_score_binary64 t l Ht Hl) as [n [En [_ Hr]]].
  pose proof (combined_score_int t l Ht Hl) as Ei.
  rewrite Ei in En. apply of_Z_inj in En. rewrite En.
  split; [now rewrite <- En|exact Hr].
Qed.

Lemma weighted_sum_binary64_witness :
  0 <= 75 <= 100 /\ 0 <= 48 <= 100 /\
  combined_score (JS.of_Z 75) (JS.of_Z 48) = JS.of_Z 64 /\
  Binary64.rounds_to (Binary64.weighted 75 48) 64 = true.
Proof.
  assert (0 <= 75 <= 100) as Ht by lia.
  assert (0 <= 48 <= 100) as Hl by lia.
  split; [exact Ht|]. split; [exact Hl|].
  exact (weighted_sum_binary64 75 48 Ht Hl).
Defined.

(** * The run of [analyzeImage]: the grid that reaches [analyzeLSB] *)







Lemma getImageData_image_strip :
  getImageData image_strip = Thrown "IndexSizeError".
Proof.
  unfold getImageData, image_strip. cbn [width height drawn].
  assert (maxPixels * 1 < 2000000) as Hh by (unfold maxPixels; lia).
  pose proof (canvas_width_zero 1 2000000 ltac:(lia) Hh) as H.
  destruct (canvas_size 1 2000000) as [cw ch]. cbn [fst] in H. subst cw.
  reflexivity.
Qed.

Lemma Int_part_IZR (z : Z) : Int_part (IZR z) = z.
Proof. symmetry. apply Int_part_spec. lra. Qed.











(** * The entropy loop in binary64 *)

Lemma occurrences_all_bytes (v : byte) : occurrences v all_bytes = 1.
Proof. destruct v; vm_compute; reflexivity. Qed.

Lemma occurrences_app (v : byte) (a b : list byte) :
  occurrences v (a ++ b) = occurrences v a + occurrences v b.
Proof. unfold occurrences. rewrite count_occ_app. lia. Qed.

Lemma occurrences_repeat (v u : byte) (n : nat) :
  occurrences v (repeat u n) = if Byte.eqb u v then Z.of_nat n else 0.
Proof.
  unfold occurrences. destruct (Byte.eqb u v) eqn:E.
  - apply Byte.byte_dec_bl in E. subst u.
    now rewrite count_occ_repeat_eq.
  - rewrite count_occ_repeat_neq; [reflexivity|].
    intros ->. now rewrite byte_eqb_refl in E.
Qed.

Lemma occurrences_grouped_list (k : byte -> Z) (v : byte) (l : list byte) :
  0 <= k v ->
  occurrences v (List.concat (map (fun u => repeat u (Z.to_nat (k u))) l))
  = occurrences v l * k v.
Proof.
  intro Hk. induction l as [|u l IH].
  - reflexivity.
  - cbn [map List.concat]. rewrite occurrences_app, IH, occurrences_repeat.
    rewrite occurrences_cons.
    destruct (Byte.eqb u v) eqn:E.
    + apply Byte.byte_dec_bl in E. subst u. lia.
    + lia.
Qed.

(** The frequency table of [grouped k] is [k] itself. *)
Lemma byte_freq_grouped (k : byte -> Z) :
  (forall v, 0 <= k v) -> byte_freq (grouped k) = map k all_bytes.
Proof.
  intro Hk. rewrite byte_freq_occurrences. apply map_ext. intro v.
  unfold grouped. rewrite occurrences_grouped_list by apply Hk.
  rewrite occurrences_all_bytes. lia.
Qed.

Lemma near_uniform_table :
  byte_freq near_uniform = 231643 :: repeat 231642 255
  /\ len near_uniform = 59300353.
Proof.
  assert (byte_freq near_uniform = 231643 :: repeat 231642 255) as E.
  { unfold near_uniform. rewrite byte_freq_grouped.
    - vm_compute. reflexivity.
    - intro v. unfold near_uniform_count. destruct (Byte.eqb v x00); lia. }
  split; [exact E|].
  destruct (byte_freq_facts near_uniform) as [_ [_ Hsum]].
  rewrite <- Hsum, E. vm_compute. reflexivity.
Qed.

(** C8 as stated fails in binary64: on [near_uniform] the loop of
    [shannonEntropy] ends on 8.000000000000002, the double that follows 8,
    when [Math.log2] returns the doubles nearest to the two logarithms,
    and on a value above 8 also when it returns a neighbour of either. *)
Lemma shannonEntropy_binary64_above_8 :
  len near_uniform = 59300353 /\
  Binary64.shannonEntropy
    (Binary64.log2_with Binary64.log2_p0 Binary64.log2_p1)
    near_uniform = Binary64.next_after_8 /\
  forallb
    (fun l0 =>
       forallb
         (fun l1 =>
            PrimFloat.ltb (Binary64.of_int 8)
              (Binary64.shannonEntropy (Binary64.log2_with l0 l1)
                                       near_uniform))
         Binary64.log2_p1_candidates)
    Binary64.log2_p0_candidates = true.
Proof.
  destruct near_uniform_table as [Ef El].
  split; [exact El|].
  unfold Binary64.shannonEntropy. rewrite Ef, El.
  split; vm_compute; reflexivity.
Qed.

(** * Where binary64 departs from the exact model

    Inputs the program can receive on which the code, computing in
    binary64, and the exact model return different values: the exact value
    sits on a rounding boundary and the double falls just short of it. *)

(** [analyzeLSB] at [lsb0 = 231], [lsb1 = 9]: the exact value is 7.5 and
    rounds to 8; the double is 7.4999999999999956 and rounds to 7. *)
Lemma lsb_value_231_9 :
  Binary64.rounds_to (Binary64.lsb_value 231 9) 7 = true /\
  JS.Math_min (JS.of_Z 100)
    (JS.Math_round
       (JS.mul (JS.sub (JS.of_Z 1) (lsb_balance 231 9)) (JS.of_Z 100)))
  = JS.of_Z 8.
Proof.
  split; [vm_compute; reflexivity|].
  rewrite lsb_score_formula by lia. reflexivity.
Qed.

(** [analyzeLSB] at [lsb0 = 1161], [lsb1 = 39]: 7 in the exact model, 6 in
    binary64. *)
Lemma lsb_value_1161_39 :
  Binary64.rounds_to (Binary64.lsb_value 1161 39) 6 = true /\
  JS.Math_min (JS.of_Z 100)
    (JS.Math_round
       (JS.mul (JS.sub (JS.of_Z 1) (lsb_balance 1161 39)) (JS.of_Z 100)))
  = JS.of_Z 7.
Proof.
  split; [vm_compute; reflexivity|].
  rewrite lsb_score_formula by lia. reflexivity.
Qed.

(** [getImageData] on an image of 1013 by 1013: the scaled side is 1000 in
    the exact model and 999.9999999999999 in binary64, stored as 999. *)
Lemma canvas_1013 :
  PrimFloat.leb (Binary64.of_int 999) (Binary64.scaled_side 1013 1013 1013)
  && PrimFloat.ltb (Binary64.scaled_side 1013 1013 1013)
                   (Binary64.of_int 1000) = true /\
  canvas_size 1013 1013 = (1000, 1000).
Proof.
  split; [vm_compute; reflexivity|].
  assert (canvas_scale 1013 1013 = (1000 / 1013)%R) as Es.
  { unfold canvas_scale, maxPixels.
    change (1000000 <? 1013 * 1013) with true. cbv iota.
    apply sqrt_lem_1.
    - apply Rlt_le, Rdiv_lt_0_compat; apply IZR_lt; reflexivity.
    - lra.
    - change (1013 * 1013) with 1026169. lra. }
  unfold canvas_size. cbv zeta. rewrite Es.
  replace (IZR 1013 * (1000 / 1013))%R with (IZR 1000) by lra.
  unfold to_unsigned_long. rewrite Int_part_IZR. reflexivity.
Qed.

(** The summary of [analyzeTail] for 23 printable bytes among 80: the
    exact percentage is 28.75 and prints as 28.8; the double is
    28.749999999999996, below 28.75, and prints as 28.7. *)
Lemma printable_percent_23_80 :
  PrimFloat.ltb (Binary64.printable_percent 23 80)
                (PrimFloat.div (Binary64.of_int 115) (Binary64.of_int 4))
  = true /\
  JS.toFixed (JS.mul (JS.div (JS.of_Z 23) (JS.of_Z 80)) (JS.of_Z 100)) 1
  = "28.8"%string.
Proof. split; vm_compute; reflexivity. Qed.
